(** * hydra: a dictionary attack tool for web login forms

    A shallow embedding of [hydra.go] and the properties of its
    specification.  The program is one Go file: flag handling and the
    pair source live in [main], the attack loop in [worker], the forced
    shutdown in [safeExit], and the header flags in [Headers.Set].

    Go strings and byte slices are sequences of bytes; they are modelled
    as [list ascii].  Functions of the Go standard library that the
    program calls ([strings.Index], [strings.SplitN], [strings.Replace],
    [url.QueryEscape], [http.Header.Add], ...) are modelled after their
    documented behaviour and keep their Go names. *)

From Stdlib Require Import Ascii String ZArith Lia.
From stdpp Require Import base option list strings pretty gmap.

Open Scope Z_scope.
Open Scope nat_scope.
Open Scope list_scope.

Abbreviation bytes := (list ascii).

(** A Go string literal. *)
Definition B (s : string) : bytes := list_ascii_of_string s.

(* ===================================================================== *)
(** * Package [strings] and [bytes] *)
(* ===================================================================== *)

Module Strings.

(** [strings.HasPrefix s prefix]. *)
Fixpoint HasPrefix (s prefix : bytes) {struct prefix} : bool :=
  match prefix, s with
  | [], _ => true
  | _ :: _, [] => false
  | p :: prefix', c :: s' =>
      if decide (p = c) then HasPrefix s' prefix' else false
  end.

(** [strings.Index s substr]: the index of the first instance of
    [substr] in [s]; Go returns -1 where this returns [None]. *)
Fixpoint Index (s substr : bytes) : option nat :=
  if HasPrefix s substr then Some 0
  else match s with
       | [] => None
       | _ :: s' => S <$> Index s' substr
       end.

(** [strings.Contains] and [bytes.Contains]. *)
Definition Contains (s substr : bytes) : bool :=
  match Index s substr with Some _ => true | None => false end.

(** [strings.SplitN s sep n] for [n >= 0] and a non-empty separator:
    at most [n] pieces, the last one being the unsplit remainder. *)
Fixpoint SplitN (s sep : bytes) (n : nat) : list bytes :=
  match n with
  | 0 => []
  | S n' =>
      match n' with
      | 0 => [s]
      | S _ =>
          match Index s sep with
          | None => [s]
          | Some m => take m s :: SplitN (drop (m + length sep) s) sep n'
          end
      end
  end.

(** [strings.Split s sep] is [SplitN] with the limit
    [Count(s, sep) + 1]; [len(s) + 1] is at least that, and gives the
    same pieces. *)
Definition Split (s sep : bytes) : list bytes :=
  SplitN s sep (length s + 1).

(** [strings.TrimLeft s cutset]. *)
Fixpoint TrimLeft (s cutset : bytes) : bytes :=
  match s with
  | [] => []
  | c :: s' => if bool_decide (c ∈ cutset) then TrimLeft s' cutset else s
  end.

(** The loop of [strings.Replace s old new -1] for a non-empty [old]:
    find the next instance of [old], copy what precedes it, write
    [new], and go on behind the instance. *)
Fixpoint replace_loop (fuel : nat) (s old new : bytes) : bytes :=
  match fuel with
  | 0 => s
  | S fuel' =>
      match Index s old with
      | None => s
      | Some j =>
          take j s ++ new ++ replace_loop fuel' (drop (j + length old) s) old new
      end
  end.

(** [strings.Replace s old new -1].  Both call sites pass a
    six-byte [old]; every turn of the loop consumes at least
    [len(old)] bytes of [s], so [len(s)] turns are enough. *)
Definition Replace (s old new : bytes) : bytes :=
  replace_loop (length s) s old new.

(** [strings.Join]. *)
Fixpoint Join (elems : list bytes) (sep : bytes) : bytes :=
  match elems with
  | [] => []
  | [e] => e
  | e :: rest => e ++ sep ++ Join rest sep
  end.

End Strings.

(* ===================================================================== *)
(** * [Headers]: the repeatable -h and -H flags *)
(* ===================================================================== *)

Record Header := { key : bytes; value : bytes }.

Abbreviation Headers := (list Header).

(** Go's [error] result: [None] is [nil]. *)
Abbreviation error := (option bytes).

(** [func (hs *Headers) Set(val string) error]: the new contents of the
    list and the error returned. *)
Definition Headers_Set (hs : Headers) (val : bytes) : Headers * error :=
  if negb (Strings.Contains val (B ":")) then
    (hs, Some (B "invalid header: " ++ val))
  else
    let kv := Strings.SplitN val (B ":") 2 in
    let h := {| key := nth 0 kv []; value := Strings.TrimLeft (nth 1 kv []) (B " ") |} in
    (hs ++ [h], None).

(** [func (hs *Headers) String() string]. *)
Definition Headers_String (hs : Headers) : bytes :=
  Strings.Join (map (fun h => key h ++ B ": " ++ value h) hs) (["010"%char]).

(* ===================================================================== *)
(** * The pair source of [main] *)
(* ===================================================================== *)

Record Job := { user : bytes; pass : bytes }.

(** Lines 365-373: one turn of the scanner loop over the combined file.
    [sent] is the sequence of jobs sent on the [jobs] channel so far. *)
Definition combined_line (sent : list Job) (text : bytes) : list Job :=
  let lp := Strings.SplitN text (B ":") 2 in
  if bool_decide (length lp < 2) then sent
  else sent ++ [{| user := nth 0 lp []; pass := nth 1 lp [] |}].

Definition combined_jobs (lines : list bytes) : list Job :=
  foldl combined_line [] lines.

(** Lines 392-396: the nested loops of matrix mode. *)
Definition matrix_jobs (logins passwords : list bytes) : list Job :=
  foldl (fun sent pass =>
           foldl (fun sent user => sent ++ [{| user := user; pass := pass |}])
                 sent logins)
        [] passwords.


(* ===================================================================== *)
(** * Packages [net/url], [net/textproto], [net/http] and [regexp] *)
(* ===================================================================== *)

Module Url.

Definition upperhex : bytes := B "0123456789ABCDEF".

Definition between (lo hi : nat) (c : ascii) : bool :=
  (lo <=? nat_of_ascii c) && (nat_of_ascii c <=? hi).

Definition alnum (c : ascii) : bool :=
  between 97 122 c || between 65 90 c || between 48 57 c.

(** [shouldEscape c encodeQueryComponent]: everything but the
    unreserved characters of RFC 3986 is escaped. *)
Definition shouldEscape (c : ascii) : bool :=
  if alnum c then false
  else if bool_decide (c ∈ B "-_.~") then false
  else true.

Definition escape_byte (c : ascii) : bytes :=
  if shouldEscape c then
    if decide (c = " "%char) then [ "+"%char ]
    else [ "%"%char;
           nth (nat_of_ascii c / 16) upperhex "0"%char;
           nth (nat_of_ascii c mod 16) upperhex "0"%char ]
  else [c].

(** [url.QueryEscape]. *)
Definition QueryEscape (s : bytes) : bytes := flat_map escape_byte s.

End Url.

Module Http.

Definition validHeaderFieldByte (c : ascii) : bool :=
  Url.alnum c || bool_decide (c ∈ B "!#$%&'*+-.^_`|~").

Definition toUpper (c : ascii) : ascii :=
  if Url.between 97 122 c then ascii_of_nat (nat_of_ascii c - 32) else c.

Definition toLower (c : ascii) : ascii :=
  if Url.between 65 90 c then ascii_of_nat (nat_of_ascii c + 32) else c.

Fixpoint canonical_loop (upper : bool) (a : bytes) : bytes :=
  match a with
  | [] => []
  | c :: a' =>
      let c' := if upper then toUpper c else toLower c in
      c' :: canonical_loop (bool_decide (c' = "-"%char)) a'
  end.

(** [textproto.CanonicalMIMEHeaderKey]: the first letter and any
    letter after a hyphen in upper case, the rest in lower case; a key
    with a byte that is not a header field byte is left as it is. *)
Definition CanonicalMIMEHeaderKey (s : bytes) : bytes :=
  if forallb validHeaderFieldByte s then canonical_loop true s else s.

(** [http.Header], a [map[string][]string] under canonical keys. *)
Abbreviation Header := (gmap bytes (list bytes)).

(** [func (h Header) Add(key, value string)] appends to the values of
    the key. *)
Definition Add (h : Header) (key value : bytes) : Header :=
  let k := CanonicalMIMEHeaderKey key in
  <[ k := default [] (h !! k) ++ [value] ]> h.

(** [func (h Header) Set(key, value string)] replaces the values of
    the key by the single [value]. *)
Definition Set_ (h : Header) (key value : bytes) : Header :=
  <[ CanonicalMIMEHeaderKey key := [value] ]> h.

(** What [http.NewRequest] and the header calls leave in [req], and the
    proxy of the client that sends it. *)
Record Request := {
  Method : bytes;
  URL : bytes;
  Hdr : Header;
  ReqBody : bytes;
  Proxy : option bytes
}.

(** What [client.Do] followed by [ioutil.ReadAll] can come back with:
    no response at all, a response whose body cannot be read, or a
    response with its body.  [header] is the response header as
    [resp.Header.Write] prints it. *)
Inductive Response :=
| DoError (err : bytes)
| ReadError (header : bytes) (err : bytes)
| Body (header : bytes) (body : bytes).

(** [func (h Header) Get(key string) string]: the first value under the
    key, the empty string when there is none. *)
Definition Get (h : Header) (key : bytes) : bytes :=
  match h !! CanonicalMIMEHeaderKey key with
  | Some (v :: _) => v
  | _ => []
  end.

(** The agent that the library names when the request names none. *)
Definition defaultUserAgent : bytes := B "Go-http-client/1.1".

(** What becomes of the header when the request is sent.  The client
    writes the request with the method [write] of [Request], which prints three
    lines by itself and leaves their keys out when it prints the map:
    Host (from the URL), User-Agent and Content-Length (from the body).
    [userAgent] is its variable of that name, of which the one
    User-Agent line is made (no line when it is empty): the library's
    agent unless the map has the key, and then [Get], the first value
    under it. *)
Definition userAgent (req : Request) : bytes :=
  match Hdr req !! B "User-Agent" with
  | Some _ => Get (Hdr req) (B "User-Agent")
  | None => defaultUserAgent
  end.

End Http.

(** A compiled [*regexp.Regexp], known by its method [Match], which
    reports whether the byte slice contains a match. *)
Record Regexp := { Match : bytes -> bool }.

(* ===================================================================== *)
(** * The package-level variables *)
(* ===================================================================== *)

Definition defaultUserAgent : bytes := B "Mozilla/5.0 (Hydra)".
Definition defaultContentType : bytes := B "application/x-www-form-urlencoded".

(** The flags and the variables that [main] sets before it starts the
    workers; none changes afterwards.  [numTasks] and [retryQueueLength]
    are channel capacities ([make] panics on a negative one). *)
Record Globals := {
  loginsStr : bytes;
  loginsFrom : bytes;
  passwordsStr : bytes;
  passwordsFrom : bytes;
  colonSeparatedFrom : bytes;
  firstOnly : bool;
  invertedCondition : bool;
  conditionIsRegexp : bool;
  numTasks : nat;
  verbose : bool;
  showAttempts : bool;
  outputTo : bytes;
  headersAdd : Headers;
  headersReplace : Headers;
  retryQueueLength : nat;
  Args : list bytes;
  postURL : bytes;
  host : bytes;
  data : bytes;
  condition : bytes;
  rCondition : option Regexp;
  proxyURL : option bytes
}.

(** What the program writes to standard error. *)
Inductive Diag :=
| Usage                                       (* [flag.Usage()] *)
| Log (msg : bytes)                           (* [log.Print], [log.Fatal] *)
| ShowAttempt (target login pw : bytes) (n : nat)
| ShowHeader (header : bytes)                 (* -v, line 207 *)
| ShowBody (body : bytes).                    (* -v, line 223 *)

(* ===================================================================== *)
(** * [main], lines 282-310: the checks of the credential flags *)
(* ===================================================================== *)

Definition nonempty (s : bytes) : bool := negb (bool_decide (s = [])).

(** [len(ch) > 0] for a channel. *)
Definition nonempty_list {A} (l : list A) : bool :=
  match l with [] => false | _ :: _ => true end.

(** [None] when the checks pass; otherwise what was written to standard
    error and the exit status.  [log.Fatal] prints its message and calls
    [os.Exit(1)]. *)
Definition check_flags (g : Globals) : option (list Diag * Z) :=
  if negb (length (Args g) =? 3) then
    Some ([Usage], 1%Z)
  else if nonempty (loginsStr g) && nonempty (loginsFrom g) then
    Some ([Log (B "both -l and -L are specified")], 1%Z)
  else if nonempty (passwordsStr g) && nonempty (passwordsFrom g) then
    Some ([Log (B "both -p and -P are specified")], 1%Z)
  else if nonempty (colonSeparatedFrom g) &&
          (nonempty (loginsStr g) || nonempty (loginsFrom g) ||
           nonempty (passwordsStr g) || nonempty (passwordsFrom g)) then
    Some ([Log (B "both -C and one of -l/-L/-p/-P are specified")], 1%Z)
  else if negb (nonempty (colonSeparatedFrom g)) then
    if negb (nonempty (loginsStr g)) && negb (nonempty (loginsFrom g)) then
      Some ([Log (B "no logins are specified")], 1%Z)
    else if negb (nonempty (passwordsStr g)) && negb (nonempty (passwordsFrom g)) then
      Some ([Log (B "no passwords are specified")], 1%Z)
    else None
  else None.

(* ===================================================================== *)
(** * [main], lines 358-397: the pairs sent on [jobs] *)
(* ===================================================================== *)

(** The pairs that [main] sends, in the order of the sends.  [readlines]
    gives the lines of a file that can be read ([log.Fatal] ends the
    process on one that cannot); the scanner of the combined file
    yields the same lines. *)
Definition pair_source (g : Globals) (readlines : bytes -> list bytes) : list Job :=
  if nonempty (colonSeparatedFrom g) then
    combined_jobs (readlines (colonSeparatedFrom g))
  else
    let logins :=
      if nonempty (loginsFrom g) then readlines (loginsFrom g)
      else Strings.Split (loginsStr g) (B ":") in
    let passwords :=
      if nonempty (passwordsFrom g) then readlines (passwordsFrom g)
      else Strings.Split (passwordsStr g) (B ":") in
    matrix_jobs logins passwords.

(* ===================================================================== *)
(** * [worker], lines 177-192: the request of one attempt *)
(* ===================================================================== *)

Definition USER : bytes := B "^USER^".
Definition PASS : bytes := B "^PASS^".

(** Lines 177-178. *)
Definition postData (g : Globals) (job : Job) : bytes :=
  let postData := Strings.Replace (data g) USER (Url.QueryEscape (user job)) in
  Strings.Replace postData PASS (Url.QueryEscape (pass job)).

(** [strconv.Itoa] of a length. *)
Definition Itoa (n : nat) : bytes := B (pretty n).

(** Lines 181-185. *)
Definition standard_headers (g : Globals) (body : bytes) : Headers :=
  [ {| key := B "Host"; value := host g |};
    {| key := B "User-Agent"; value := defaultUserAgent |};
    {| key := B "Content-Length"; value := Itoa (length body) |};
    {| key := B "Content-Type"; value := defaultContentType |};
    {| key := B "Connection"; value := B "Keep-Alive" |} ].

(** Lines 181-192: the header of the request. *)
Definition request_header (g : Globals) (body : bytes) : Http.Header :=
  let h := foldl (fun h e => Http.Add h (key e) (value e)) ∅ (standard_headers g body) in
  let h := foldl (fun h e => Http.Add h (key e) (value e)) h (headersAdd g) in
  foldl (fun h e => Http.Set_ h (key e) (value e)) h (headersReplace g).

(** Lines 144-149 and 177-194. *)
Definition new_request (g : Globals) (job : Job) : Http.Request :=
  let body := postData g job in
  {| Http.Method := B "POST";
     Http.URL := postURL g;
     Http.Hdr := request_header g body;
     Http.ReqBody := body;
     Http.Proxy := proxyURL g |}.

(** Lines 226-234. *)
Definition failed (g : Globals) (body : bytes) : bool :=
  let failed :=
    match rCondition g with
    | Some re => Match re body
    | None => Strings.Contains body (condition g)
    end in
  if invertedCondition g then negb failed else failed.

(** Line 240: what [fmt.Fprintf(out, "%s:%s\n", job.user, job.pass)]
    writes. *)
Definition result_line (job : Job) : bytes :=
  user job ++ B ":" ++ pass job ++ ["010"%char].


(* ===================================================================== *)
(** * The running process: [main], the workers and what they share *)
(* ===================================================================== *)

(** Where a worker goroutine stands in [worker] and [safeExit]. *)
Inductive Pc :=
| AtSelect                              (* line 154: top of the loop *)
| AtAttempt (job : Job)                 (* lines 173-237 *)
| AtLock (job : Job)                    (* line 239: [m.Lock()] *)
| AtFprintf (job : Job)                 (* line 240 *)
| AtUnlock (job : Job) (err : error)    (* lines 241-248 *)
| AtExitLock                            (* line 131: [m.Lock()] *)
| AtExitClose                           (* line 132: [out.Close()] *)
| AtExitUnlock (err : error)            (* lines 133-136 *)
| AtOsExit                              (* line 138 *)
| Returned.                             (* left the loop; [wg.Done()] ran *)

(** The local variable [ok] of a worker and its position. *)
Record Worker := { ok : bool; pc : Pc }.

(** Where [main] stands once the workers run: sending the pairs that are
    left, lines 358-397; [close(jobs)] happens when none is left;
    [wg.Wait()], line 400; returned. *)
Inductive MainPc :=
| Sending (pending : list Job)
| Waiting
| Finished.

(** The shared variables [jobs], [retry], [wg], [m] and [out], standard
    error, the exit status once the process has exited, and the
    goroutines.  A channel is the queue of its buffered values. *)
Record State := {
  jobs : list Job;
  jobs_closed : bool;
  retry : list Job;
  wg : nat;
  m_locked : bool;
  out : list bytes;
  out_closed : bool;
  stderr : list Diag;
  exited : option Z;
  main_pc : MainPc;
  workers : list Worker
}.

Definition set_jobs (v : list Job) (s : State) : State :=
  {| jobs := v; jobs_closed := jobs_closed s; retry := retry s; wg := wg s;
     m_locked := m_locked s; out := out s; out_closed := out_closed s;
     stderr := stderr s; exited := exited s; main_pc := main_pc s;
     workers := workers s |}.

Definition set_jobs_closed (v : bool) (s : State) : State :=
  {| jobs := jobs s; jobs_closed := v; retry := retry s; wg := wg s;
     m_locked := m_locked s; out := out s; out_closed := out_closed s;
     stderr := stderr s; exited := exited s; main_pc := main_pc s;
     workers := workers s |}.

Definition set_retry (v : list Job) (s : State) : State :=
  {| jobs := jobs s; jobs_closed := jobs_closed s; retry := v; wg := wg s;
     m_locked := m_locked s; out := out s; out_closed := out_closed s;
     stderr := stderr s; exited := exited s; main_pc := main_pc s;
     workers := workers s |}.

Definition set_wg (v : nat) (s : State) : State :=
  {| jobs := jobs s; jobs_closed := jobs_closed s; retry := retry s; wg := v;
     m_locked := m_locked s; out := out s; out_closed := out_closed s;
     stderr := stderr s; exited := exited s; main_pc := main_pc s;
     workers := workers s |}.

Definition set_m_locked (v : bool) (s : State) : State :=
  {| jobs := jobs s; jobs_closed := jobs_closed s; retry := retry s; wg := wg s;
     m_locked := v; out := out s; out_closed := out_closed s;
     stderr := stderr s; exited := exited s; main_pc := main_pc s;
     workers := workers s |}.

Definition set_out (v : list bytes) (s : State) : State :=
  {| jobs := jobs s; jobs_closed := jobs_closed s; retry := retry s; wg := wg s;
     m_locked := m_locked s; out := v; out_closed := out_closed s;
     stderr := stderr s; exited := exited s; main_pc := main_pc s;
     workers := workers s |}.

Definition set_out_closed (v : bool) (s : State) : State :=
  {| jobs := jobs s; jobs_closed := jobs_closed s; retry := retry s; wg := wg s;
     m_locked := m_locked s; out := out s; out_closed := v;
     stderr := stderr s; exited := exited s; main_pc := main_pc s;
     workers := workers s |}.

Definition set_stderr (v : list Diag) (s : State) : State :=
  {| jobs := jobs s; jobs_closed := jobs_closed s; retry := retry s; wg := wg s;
     m_locked := m_locked s; out := out s; out_closed := out_closed s;
     stderr := v; exited := exited s; main_pc := main_pc s;
     workers := workers s |}.

Definition set_exited (v : option Z) (s : State) : State :=
  {| jobs := jobs s; jobs_closed := jobs_closed s; retry := retry s; wg := wg s;
     m_locked := m_locked s; out := out s; out_closed := out_closed s;
     stderr := stderr s; exited := v; main_pc := main_pc s;
     workers := workers s |}.

Definition set_main_pc (v : MainPc) (s : State) : State :=
  {| jobs := jobs s; jobs_closed := jobs_closed s; retry := retry s; wg := wg s;
     m_locked := m_locked s; out := out s; out_closed := out_closed s;
     stderr := stderr s; exited := exited s; main_pc := v;
     workers := workers s |}.

Definition set_workers (v : list Worker) (s : State) : State :=
  {| jobs := jobs s; jobs_closed := jobs_closed s; retry := retry s; wg := wg s;
     m_locked := m_locked s; out := out s; out_closed := out_closed s;
     stderr := stderr s; exited := exited s; main_pc := main_pc s;
     workers := v |}.

(** Worker [n] takes the local state [w]. *)
Definition set_worker (n : nat) (w : Worker) (s : State) : State :=
  set_workers (<[n := w]> (workers s)) s.

Definition goto (n : nat) (ok : bool) (pc : Pc) (s : State) : State :=
  set_worker n {| ok := ok; pc := pc |} s.

(** Writing to standard error. *)
Definition eprint (d : list Diag) (s : State) : State :=
  set_stderr (stderr s ++ d) s.

(** [log.Print(err)] under [if err != nil]. *)
Definition log_error (err : error) (s : State) : State :=
  match err with
  | Some e => eprint [Log e] s
  | None => s
  end.

(** Lines 199-202 and 215-218: a [select] with the send on [retry] and
    an empty [default].  The send goes through when the buffer has
    room (no goroutine ever waits on [retry], every receive on it is in
    a [select] with a [default]); otherwise nothing happens. *)
Definition retry_trySend (g : Globals) (job : Job) (s : State) : State :=
  if length (retry s) <? retryQueueLength g then set_retry (retry s ++ [job]) s
  else s.

(** What the goroutines do not decide themselves: which ready case a
    [select] takes when both are ready, and what the network answers to
    a request. *)
Record Env := {
  select_retry : bool;
  server : Http.Request -> Http.Response
}.

(** The error of a write to, or a second close of, a closed file. *)
Definition ErrClosed : bytes := B "file already closed".

(** Lines 154-171: the two [select] statements.  A receive on [jobs] is
    ready when a value is buffered or the channel is closed, a receive
    on [retry] when a value is buffered; [default] runs when no case is
    ready. *)
Definition select_step (e : Env) (n : nat) (w : Worker) (s : State) : State :=
  let jobs_ready := nonempty_list (jobs s) || jobs_closed s in
  let retry_ready := nonempty_list (retry s) in
  let from_retry :=
    match retry s with
    | job :: rest => goto n (ok w) (AtAttempt job) (set_retry rest s)
    | [] => goto n (ok w) Returned (set_wg (wg s - 1) s)      (* break loop *)
    end in
  if ok w then
    if jobs_ready && (negb retry_ready || negb (select_retry e)) then
      match jobs s with
      | job :: rest => goto n true (AtAttempt job) (set_jobs rest s)
      | [] => goto n false AtSelect s                          (* continue loop *)
      end
    else from_retry
  else from_retry.

(** Lines 173-237: one attempt, up to the decision to report it. *)
Definition attempt_step (g : Globals) (e : Env) (n : nat) (w : Worker)
    (job : Job) (s : State) : State :=
  let s := if showAttempts g
           then eprint [ShowAttempt (host g) (user job) (pass job) n] s else s in
  match server e (new_request g job) with
  | Http.DoError err =>
      goto n (ok w) AtSelect (retry_trySend g job (eprint [Log err] s))
  | Http.ReadError header err =>
      let s := if verbose g then eprint [ShowHeader header] s else s in
      goto n (ok w) AtSelect (retry_trySend g job (eprint [Log err] s))
  | Http.Body header body =>
      let s := if verbose g then eprint [ShowHeader header] s else s in
      let s := if verbose g then eprint [ShowBody body] s else s in
      if failed g body then goto n (ok w) AtSelect s
      else goto n (ok w) (AtLock job) s
  end.

(** One step of worker [n]; [None] when the worker cannot move: it has
    returned, it waits for the mutex, or the process has exited. *)
Definition worker_step (g : Globals) (e : Env) (n : nat) (s : State) : option State :=
  match exited s, workers s !! n with
  | None, Some w =>
      match pc w with
      | AtSelect => Some (select_step e n w s)
      | AtAttempt job => Some (attempt_step g e n w job s)
      | AtLock job =>
          if m_locked s then None
          else Some (goto n (ok w) (AtFprintf job) (set_m_locked true s))
      | AtFprintf job =>
          if out_closed s then Some (goto n (ok w) (AtUnlock job (Some ErrClosed)) s)
          else Some (goto n (ok w) (AtUnlock job None)
                       (set_out (out s ++ [result_line job]) s))
      | AtUnlock job err =>
          Some (goto n (ok w) (if firstOnly g then AtExitLock else AtSelect)
                  (log_error err (set_m_locked false s)))
      | AtExitLock =>
          if m_locked s then None
          else Some (goto n (ok w) AtExitClose (set_m_locked true s))
      | AtExitClose =>
          Some (goto n (ok w)
                  (AtExitUnlock (if out_closed s then Some ErrClosed else None))
                  (set_out_closed true s))
      | AtExitUnlock err =>
          Some (goto n (ok w) AtOsExit (log_error err (set_m_locked false s)))
      | AtOsExit => Some (set_exited (Some 0%Z) s)
      | Returned => None
      end
  | _, _ => None
  end.

(** One step of [main] after it started the workers: a send blocks
    while the buffer of [jobs] is full; [wg.Wait()] blocks until every
    worker has returned; then [main] returns, the deferred [out.Close()]
    of line 346 runs when -o was given, and the process exits with
    status 0. *)
Definition main_step (g : Globals) (s : State) : option State :=
  match exited s, main_pc s with
  | None, Sending (job :: rest) =>
      if length (jobs s) <? numTasks g
      then Some (set_main_pc (Sending rest) (set_jobs (jobs s ++ [job]) s))
      else None
  | None, Sending [] => Some (set_main_pc Waiting (set_jobs_closed true s))
  | None, Waiting =>
      if wg s =? 0
      then Some (set_main_pc Finished
                   (set_exited (Some 0%Z)
                      (if nonempty (outputTo g) then set_out_closed true s else s)))
      else None
  | _, _ => None
  end.

(** The goroutines. *)
Inductive Tid :=
| TMain
| TWorker (n : nat).

Definition step (g : Globals) (t : Tid) (e : Env) (s : State) : option State :=
  match t with
  | TMain => main_step g s
  | TWorker n => worker_step g e n s
  end.

(** A run under a schedule: who moves next, and what the environment
    does for that move. *)
Fixpoint run (g : Globals) (sched : list (Tid * Env)) (s : State) : option State :=
  match sched with
  | [] => Some s
  | (t, e) :: sched' =>
      match step g t e s with
      | Some s' => run g sched' s'
      | None => None
      end
  end.

(** Lines 334-339: the state in which [main] starts to send [pairs]. *)
Definition init (g : Globals) (pairs : list Job) : State :=
  {| jobs := []; jobs_closed := false; retry := []; wg := numTasks g;
     m_locked := false; out := []; out_closed := false; stderr := [];
     exited := None; main_pc := Sending pairs;
     workers := replicate (numTasks g) {| ok := true; pc := AtSelect |} |}.

(* ===================================================================== *)
(** * Notions of the specification *)
(* ===================================================================== *)

(** The values that the entries of a header list give for the canonical
    key [k], in the order of the list. *)
Definition values_for (k : bytes) (hs : Headers) : list bytes :=
  value <$> filter (fun h => Http.CanonicalMIMEHeaderKey (key h) = k) hs.

(** [ReplacedAll old new s r]: [r] is [s] with every instance of [old]
    replaced by [new], the instances being taken from left to right
    without overlap.  Either [s] has no instance of [old], or [s] is
    [pre ++ old ++ post] with no instance starting earlier, and the rest
    of [r] comes from [post] in the same way. *)
Inductive ReplacedAll (old new : bytes) : bytes -> bytes -> Prop :=
| ReplacedAll_none (s : bytes) :
    (forall pre post, s <> pre ++ old ++ post) ->
    ReplacedAll old new s s
| ReplacedAll_next (pre post r : bytes) :
    (forall pre' post', pre ++ old ++ post = pre' ++ old ++ post' ->
                        length pre <= length pre') ->
    ReplacedAll old new post r ->
    ReplacedAll old new (pre ++ old ++ post) (pre ++ new ++ r).

(** The body as the specification words it: the template with every
    instance of ^USER^ replaced by [u] and every instance of ^PASS^
    replaced by [p].  The instances are those of the template, read
    from left to right; [skip] counts the bytes of an instance that are
    still to be passed over. *)
Fixpoint substitute (skip : nat) (template u p : bytes) : bytes :=
  match template with
  | [] => []
  | c :: rest =>
      match skip with
      | S k => substitute k rest u p
      | 0 =>
          if Strings.HasPrefix template USER then u ++ substitute 5 rest u p
          else if Strings.HasPrefix template PASS then p ++ substitute 5 rest u p
          else c :: substitute 0 rest u p
      end
  end.

Definition postData_by_occurrences (g : Globals) (job : Job) : bytes :=
  substitute 0 (data g) (Url.QueryEscape (user job)) (Url.QueryEscape (pass job)).

(** The credential flags conflict. *)
Definition conflicting (g : Globals) : Prop :=
  (loginsStr g <> [] /\ loginsFrom g <> []) \/
  (passwordsStr g <> [] /\ passwordsFrom g <> []) \/
  (colonSeparatedFrom g <> [] /\
   (loginsStr g <> [] \/ loginsFrom g <> [] \/
    passwordsStr g <> [] \/ passwordsFrom g <> [])).

(** No combined file is given, and the logins or the passwords are
    missing. *)
Definition missing (g : Globals) : Prop :=
  colonSeparatedFrom g = [] /\
  ((loginsStr g = [] /\ loginsFrom g = []) \/
   (passwordsStr g = [] /\ passwordsFrom g = [])).

(* ===================================================================== *)
(** * A sample attack *)
(* ===================================================================== *)

(** [hydra -l alice:bob -p x:y -t 2 http://127.0.0.1/login
    "user=^USER^&pass=^PASS^" "login failed"], as [main] leaves the
    variables at line 334. *)
Definition sample : Globals :=
  {| loginsStr := B "alice:bob"; loginsFrom := [];
     passwordsStr := B "x:y"; passwordsFrom := [];
     colonSeparatedFrom := [];
     firstOnly := false; invertedCondition := false; conditionIsRegexp := false;
     numTasks := 2; verbose := false; showAttempts := false; outputTo := [];
     headersAdd := []; headersReplace := []; retryQueueLength := 1024;
     Args := [B "http://127.0.0.1/login"; B "user=^USER^&pass=^PASS^"; B "login failed"];
     postURL := B "http://127.0.0.1/login"; host := B "127.0.0.1";
     data := B "user=^USER^&pass=^PASS^";
     condition := B "login failed"; rCondition := None; proxyURL := None |}.

(** The same with a further flag. *)
Definition with_firstOnly (g : Globals) : Globals :=
  {| loginsStr := loginsStr g; loginsFrom := loginsFrom g;
     passwordsStr := passwordsStr g; passwordsFrom := passwordsFrom g;
     colonSeparatedFrom := colonSeparatedFrom g;
     firstOnly := true; invertedCondition := invertedCondition g;
     conditionIsRegexp := conditionIsRegexp g;
     numTasks := numTasks g; verbose := verbose g; showAttempts := showAttempts g;
     outputTo := outputTo g; headersAdd := headersAdd g;
     headersReplace := headersReplace g; retryQueueLength := retryQueueLength g;
     Args := Args g; postURL := postURL g; host := host g; data := data g;
     condition := condition g; rCondition := rCondition g; proxyURL := proxyURL g |}.

Definition with_loginsFrom (file : bytes) (g : Globals) : Globals :=
  {| loginsStr := loginsStr g; loginsFrom := file;
     passwordsStr := passwordsStr g; passwordsFrom := passwordsFrom g;
     colonSeparatedFrom := colonSeparatedFrom g;
     firstOnly := firstOnly g; invertedCondition := invertedCondition g;
     conditionIsRegexp := conditionIsRegexp g;
     numTasks := numTasks g; verbose := verbose g; showAttempts := showAttempts g;
     outputTo := outputTo g; headersAdd := headersAdd g;
     headersReplace := headersReplace g; retryQueueLength := retryQueueLength g;
     Args := Args g; postURL := postURL g; host := host g; data := data g;
     condition := condition g; rCondition := rCondition g; proxyURL := proxyURL g |}.

Definition with_data (template : bytes) (g : Globals) : Globals :=
  {| loginsStr := loginsStr g; loginsFrom := loginsFrom g;
     passwordsStr := passwordsStr g; passwordsFrom := passwordsFrom g;
     colonSeparatedFrom := colonSeparatedFrom g;
     firstOnly := firstOnly g; invertedCondition := invertedCondition g;
     conditionIsRegexp := conditionIsRegexp g;
     numTasks := numTasks g; verbose := verbose g; showAttempts := showAttempts g;
     outputTo := outputTo g; headersAdd := headersAdd g;
     headersReplace := headersReplace g; retryQueueLength := retryQueueLength g;
     Args := Args g; postURL := postURL g; host := host g; data := template;
     condition := condition g; rCondition := rCondition g; proxyURL := proxyURL g |}.

(** The pairs of the sample attack. *)
Definition sample_pairs : list Job := pair_source sample (fun _ => []).

(** A server that lets everybody in, one that lets nobody in, and one
    that cannot be reached. *)
Definition welcoming : Env :=
  {| select_retry := false;
     server := fun _ => Http.Body (B "HTTP/1.1 200 OK") (B "welcome") |}.

Definition rejecting : Env :=
  {| select_retry := false;
     server := fun _ => Http.Body (B "HTTP/1.1 200 OK") (B "login failed") |}.

Definition unreachable : Env :=
  {| select_retry := false;
     server := fun _ => Http.DoError (B "connection refused") |}.

(** A race in first-match-only mode: both workers hold a pair that the
    server accepts; worker 1 writes its line after worker 0 has released
    the mutex of its write and before worker 0 takes it again in
    [safeExit]. *)
Definition racing_schedule : list (Tid * Env) :=
  [ (TMain, welcoming); (TMain, welcoming);
    (TWorker 0, welcoming); (TWorker 1, welcoming);      (* select *)
    (TWorker 0, welcoming); (TWorker 1, welcoming);      (* attempt *)
    (TWorker 0, welcoming); (TWorker 0, welcoming); (TWorker 0, welcoming);
    (TWorker 1, welcoming); (TWorker 1, welcoming); (TWorker 1, welcoming);
    (TWorker 0, welcoming); (TWorker 0, welcoming); (TWorker 0, welcoming);
    (TWorker 0, welcoming) ].

(** The workers run before [main] has sent anything. *)
Definition early_schedule : list (Tid * Env) :=
  [ (TWorker 0, welcoming); (TWorker 1, welcoming);
    (TMain, welcoming); (TMain, welcoming) ].

(* ===================================================================== *)
(** * Further notions, for the properties beyond the specification *)
(* ===================================================================== *)

(** A header as [Headers.Set] leaves it: no colon in the key, no leading
    space in the value. *)
Definition set_built (h : Header) : Prop :=
  (":"%char ∉ key h) /\ (head (value h) <> Some " "%char).

(** The text "login:pass" of a pair: its line in a combined file, and
    its line in the sink without the newline. *)
Definition pair_text (job : Job) : bytes := user job ++ B ":" ++ pass job.

(** [url.QueryUnescape], the decoding that a server applies to a form
    value: "%XY" is the byte with the hexadecimal digits X and Y, "+" is
    a space, and a "%" that is not followed by two such digits is an
    error. *)
Definition ishex (c : ascii) : bool :=
  Url.between 48 57 c || Url.between 97 102 c || Url.between 65 70 c.

Definition unhex (c : ascii) : nat :=
  if Url.between 48 57 c then nat_of_ascii c - 48
  else if Url.between 97 102 c then nat_of_ascii c - 97 + 10
  else if Url.between 65 70 c then nat_of_ascii c - 65 + 10
  else 0.

Fixpoint QueryUnescape (s : bytes) : option bytes :=
  match s with
  | [] => Some []
  | c :: s' =>
      if Ascii.eqb c "%" then
        match s' with
        | h1 :: h2 :: rest =>
            if ishex h1 && ishex h2
            then cons (ascii_of_nat (unhex h1 * 16 + unhex h2)) <$> QueryUnescape rest
            else None
        | _ => None
        end
      else if Ascii.eqb c "+" then cons " "%char <$> QueryUnescape s'
      else cons c <$> QueryUnescape s'
  end.

(** The bytes that [url.QueryEscape] lets through or produces. *)
Definition query_safe (c : ascii) : bool :=
  Url.alnum c || bool_decide (c ∈ B "-_.~+%").

(** The states that the process can be in when [main] was started with
    [pairs] to send.  The pairs are those of a pair source that was read
    without error ([log.Fatal] ends the process on a file that cannot be
    read), and no signal arrives: the goroutine of lines 352-355, which
    runs [safeExit] on an interrupt, is not among the goroutines of
    [State]. *)
Definition reachable (g : Globals) (pairs : list Job) (s : State) : Prop :=
  exists sched, run g sched (init g pairs) = Some s.

Definition b2n (b : bool) : nat := if b then 1 else 0.

(** How many workers are at a position of a given kind. *)
Definition count_workers (P : Worker -> bool) (ws : list Worker) : nat :=
  length (List.filter P ws).

(** The worker has left its loop. *)
Definition has_returned (w : Worker) : bool :=
  match pc w with Returned => true | _ => false end.

Definition still_running (w : Worker) : bool := negb (has_returned w).

(** The worker is between an [m.Lock()] and the [m.Unlock()] after it. *)
Definition in_critical (w : Worker) : bool :=
  match pc w with
  | AtFprintf _ | AtUnlock _ _ | AtExitClose | AtExitUnlock _ => true
  | _ => false
  end.

(** The worker is past its [fmt.Fprintf]. *)
Definition has_written (w : Worker) : bool :=
  match pc w with
  | AtUnlock _ _ | AtExitLock | AtExitClose | AtExitUnlock _ | AtOsExit => true
  | _ => false
  end.

(** The worker is in [safeExit]. *)
Definition in_safeExit (w : Worker) : bool :=
  match pc w with
  | AtExitLock | AtExitClose | AtExitUnlock _ | AtOsExit => true
  | _ => false
  end.

(** The pair that a worker has taken and not yet written or given up. *)
Definition held_by (w : Worker) : list Job :=
  match pc w with
  | AtAttempt job | AtLock job | AtFprintf job => [job]
  | _ => []
  end.

(** The pairs that [main] has still to send. *)
Definition pending (m : MainPc) : list Job :=
  match m with Sending pairs => pairs | _ => [] end.

(** The pairs on their way: not yet sent, in a channel, or with a
    worker. *)
Definition in_flight (s : State) : list Job :=
  pending (main_pc s) ++ jobs s ++ retry s ++ flat_map held_by (workers s).

Definition is_sending (m : MainPc) : bool :=
  match m with Sending _ => true | _ => false end.

Definition is_finished (m : MainPc) : bool :=
  match m with Finished => true | _ => false end.

(** The state of the race in which worker 0 has taken the mutex for its
    write and worker 1 waits for it. *)
Definition holding_the_mutex : State :=
  set_m_locked true
    (set_worker 0 {| ok := true; pc := AtFprintf {| user := B "alice"; pass := B "x" |} |}
       (set_worker 1 {| ok := true; pc := AtLock {| user := B "bob"; pass := B "x" |} |}
          (set_main_pc (Sending (drop 2 sample_pairs))
             (init (with_firstOnly sample) sample_pairs)))).

(** The state in which an attack without pairs ends: both workers have
    returned and [main] has closed [jobs] and returned. *)
Definition finished_idle : State :=
  set_exited (Some 0%Z)
    (set_main_pc Finished
       (set_jobs_closed true
          (set_wg 0
             (set_workers [ {| ok := true; pc := Returned |};
                            {| ok := true; pc := Returned |} ]
                (init sample []))))).

Definition idle_schedule : list (Tid * Env) :=
  [ (TWorker 0, rejecting); (TWorker 1, rejecting);
    (TMain, rejecting); (TMain, rejecting) ].

(** Whether the answer of the server to the attempt of a pair makes the
    worker report the pair. *)
Definition accepted (g : Globals) (e : Env) (job : Job) : bool :=
  match server e (new_request g job) with
  | Http.Body _ body => negb (failed g body)
  | _ => false
  end.

(** The states between two attempts when worker 0 works alone: the
    [k] other workers have returned, the channels are empty, the mutex
    is free, and [main] has [rest] to send. *)
Definition between_attempts (k : nat) (written : list bytes) (err : list Diag)
    (rest : list Job) : State :=
  {| jobs := []; jobs_closed := false; retry := []; wg := 1;
     m_locked := false; out := written; out_closed := false; stderr := err;
     exited := None; main_pc := Sending rest;
     workers := {| ok := true; pc := AtSelect |}
                  :: replicate k {| ok := true; pc := Returned |} |}.

(** The state in which the other workers are about to leave: [i] of
    them have not yet run. *)
Definition others_leaving (i j : nat) (pairs : list Job) : State :=
  {| jobs := []; jobs_closed := false; retry := []; wg := S i;
     m_locked := false; out := []; out_closed := false; stderr := [];
     exited := None; main_pc := Sending pairs;
     workers := replicate (S i) {| ok := true; pc := AtSelect |}
                  ++ replicate j {| ok := true; pc := Returned |} |}.

(** A server that lets in alice with the password y and nobody else. *)
Definition only_alice_y : Env :=
  {| select_retry := false;
     server := fun req =>
       if Strings.Contains (Http.ReqBody req) (B "user=alice&pass=y")
       then Http.Body (B "HTTP/1.1 200 OK") (B "welcome")
       else Http.Body (B "HTTP/1.1 200 OK") (B "login failed") |}.

(** The states in which every worker has returned while [main] still
    sends: [sent] waits in [jobs], [rest] is to be sent. *)
Definition workers_gone (k : nat) (sent rest : list Job) : State :=
  {| jobs := sent; jobs_closed := false; retry := []; wg := 0;
     m_locked := false; out := []; out_closed := false; stderr := [];
     exited := None; main_pc := Sending rest;
     workers := replicate k {| ok := true; pc := Returned |} |}.


(* ===================================================================== *)
(** * Notions for whole runs *)
(* ===================================================================== *)

(** The state at the end of a run. *)
Definition state_after (g : Globals) (sched : list (Tid * Env)) (s : State) : State :=
  default s (run g sched s).

Definition is_worker (n : nat) (t : Tid) : bool :=
  match t with TWorker m => n =? m | TMain => false end.

(** How many steps worker [n] takes in a schedule. *)
Definition steps_of (n : nat) (sched : list (Tid * Env)) : nat :=
  length (List.filter (fun te => is_worker n te.1) sched).

Definition is_main (t : Tid) : bool :=
  match t with TMain => true | TWorker _ => false end.

(** How many steps [main] takes in a schedule. *)
Definition main_steps (sched : list (Tid * Env)) : nat :=
  length (List.filter (fun te => is_main te.1) sched).

(** The pairs that are pushed to [jobs] in the course of a run, in the
    order of the pushes: what each step has put behind the pairs that
    waited in [jobs] before it. *)
Fixpoint pushed (g : Globals) (sched : list (Tid * Env)) (s : State) : list Job :=
  match sched with
  | [] => []
  | (t, e) :: sched' =>
      match step g t e s with
      | Some s' => drop (length (jobs s)) (jobs s') ++ pushed g sched' s'
      | None => []
      end
  end.

(** In the run [sched] from the start of [main], some worker tried
    [job], the server answered with a body, and [failed] came out false
    for that body. *)
Definition cleared (g : Globals) (pairs : list Job) (sched : list (Tid * Env))
    (job : Job) : Prop :=
  exists sched1 sched2 n e s1 w header body,
    sched = sched1 ++ (TWorker n, e) :: sched2 /\
    run g sched1 (init g pairs) = Some s1 /\
    workers s1 !! n = Some w /\ pc w = AtAttempt job /\
    server e (new_request g job) = Http.Body header body /\
    failed g body = false.

(* ===================================================================== *)
(** * Package [bufio]: the scanner of [readlines] and of the combined file *)
(* ===================================================================== *)

Module Bufio.

(** The size of the buffer of a [Scanner]: a line of that many bytes or
    more, the end of line not counted, ends the scan with
    [ErrTooLong]. *)
Definition MaxScanTokenSize : N := 65536.

(** [dropCR] drops a terminal carriage return. *)
Definition dropCR (data : bytes) : bytes :=
  match last data with
  | Some "013"%char => take (length data - 1) data
  | _ => data
  end.

(** The texts that [scanner.Text()] gives in the loop
    [for scanner.Scan()] over a file with the contents [data], the
    split function being [ScanLines]: a line ends at a newline, which
    is dropped together with a carriage return before it; what follows
    the last newline is a line too, unless it is empty.  [line] holds
    the bytes of the line that is being read.  [None] when
    [scanner.Err()] is not nil at the end. *)
Fixpoint scan (line data : bytes) : option (list bytes) :=
  if (MaxScanTokenSize <=? N.of_nat (length line))%N then None
  else match data with
       | [] => if nonempty_list line then Some [dropCR line] else Some []
       | c :: data' =>
           if Ascii.eqb c "010" then cons (dropCR line) <$> scan [] data'
           else scan (line ++ [c]) data'
       end.

Definition Scan (data : bytes) : option (list bytes) := scan [] data.

End Bufio.

(* ===================================================================== *)
(** * More sample runs *)
(* ===================================================================== *)

Definition with_headersAdd (hs : Headers) (g : Globals) : Globals :=
  {| loginsStr := loginsStr g; loginsFrom := loginsFrom g;
     passwordsStr := passwordsStr g; passwordsFrom := passwordsFrom g;
     colonSeparatedFrom := colonSeparatedFrom g;
     firstOnly := firstOnly g; invertedCondition := invertedCondition g;
     conditionIsRegexp := conditionIsRegexp g;
     numTasks := numTasks g; verbose := verbose g; showAttempts := showAttempts g;
     outputTo := outputTo g; headersAdd := hs;
     headersReplace := headersReplace g; retryQueueLength := retryQueueLength g;
     Args := Args g; postURL := postURL g; host := host g; data := data g;
     condition := condition g; rCondition := rCondition g; proxyURL := proxyURL g |}.

Definition with_headersReplace (hs : Headers) (g : Globals) : Globals :=
  {| loginsStr := loginsStr g; loginsFrom := loginsFrom g;
     passwordsStr := passwordsStr g; passwordsFrom := passwordsFrom g;
     colonSeparatedFrom := colonSeparatedFrom g;
     firstOnly := firstOnly g; invertedCondition := invertedCondition g;
     conditionIsRegexp := conditionIsRegexp g;
     numTasks := numTasks g; verbose := verbose g; showAttempts := showAttempts g;
     outputTo := outputTo g; headersAdd := headersAdd g;
     headersReplace := hs; retryQueueLength := retryQueueLength g;
     Args := Args g; postURL := postURL g; host := host g; data := data g;
     condition := condition g; rCondition := rCondition g; proxyURL := proxyURL g |}.

Definition with_retryQueueLength (n : nat) (g : Globals) : Globals :=
  {| loginsStr := loginsStr g; loginsFrom := loginsFrom g;
     passwordsStr := passwordsStr g; passwordsFrom := passwordsFrom g;
     colonSeparatedFrom := colonSeparatedFrom g;
     firstOnly := firstOnly g; invertedCondition := invertedCondition g;
     conditionIsRegexp := conditionIsRegexp g;
     numTasks := numTasks g; verbose := verbose g; showAttempts := showAttempts g;
     outputTo := outputTo g; headersAdd := headersAdd g;
     headersReplace := headersReplace g; retryQueueLength := n;
     Args := Args g; postURL := postURL g; host := host g; data := data g;
     condition := condition g; rCondition := rCondition g; proxyURL := proxyURL g |}.

Definition alice_x : Job := {| user := B "alice"; pass := B "x" |}.
Definition bob_x : Job := {| user := B "bob"; pass := B "x" |}.
Definition alice_y : Job := {| user := B "alice"; pass := B "y" |}.
Definition bob_y : Job := {| user := B "bob"; pass := B "y" |}.

(** [main] has sent two pairs and no worker has run: the buffer of
    [jobs] is full. *)
Definition two_sends : list (Tid * Env) :=
  [ (TMain, welcoming); (TMain, welcoming) ].

Definition queue_full : State :=
  set_main_pc (Sending [alice_y; bob_y])
    (set_jobs [alice_x; bob_x] (init sample sample_pairs)).

(** Each worker has taken a pair. *)
Definition both_attempting : State :=
  set_workers [ {| ok := true; pc := AtAttempt alice_x |};
                {| ok := true; pc := AtAttempt bob_x |} ]
    (set_main_pc (Sending [alice_y; bob_y]) (init sample sample_pairs)).

(** Worker 1 tries and writes its pair first; worker 0, which the
    server also lets in, waits for the mutex and writes after it. *)
Definition overtaking_schedule : list (Tid * Env) :=
  [ (TWorker 1, welcoming); (TWorker 0, welcoming);
    (TWorker 1, welcoming); (TWorker 1, welcoming); (TWorker 1, welcoming);
    (TWorker 0, welcoming); (TWorker 0, welcoming) ].

(** In first-match-only mode: both workers take a pair that the server
    accepts; worker 0 writes its line and goes through [safeExit] to
    the end while worker 1 has not yet taken the mutex. *)
Definition abandoning_schedule : list (Tid * Env) :=
  [ (TMain, welcoming); (TMain, welcoming);
    (TWorker 0, welcoming); (TWorker 1, welcoming);      (* select *)
    (TWorker 0, welcoming); (TWorker 1, welcoming);      (* attempt *)
    (TWorker 0, welcoming); (TWorker 0, welcoming); (TWorker 0, welcoming);
    (TWorker 0, welcoming); (TWorker 0, welcoming); (TWorker 0, welcoming);
    (TWorker 0, welcoming) ].

(** The sample attack against a server that lets nobody in, to the
    point where worker 0, having tried three pairs, finds [jobs] closed
    and empty: [main] has sent the four pairs and closed [jobs], worker
    1 is still at its first attempt. *)
Definition draining_schedule : list (Tid * Env) :=
  [ (TMain, rejecting); (TMain, rejecting);
    (TWorker 0, rejecting); (TWorker 1, rejecting);      (* select *)
    (TMain, rejecting); (TMain, rejecting); (TMain, rejecting);
    (TWorker 0, rejecting); (TWorker 0, rejecting);      (* alice:x, select *)
    (TWorker 0, rejecting); (TWorker 0, rejecting);      (* alice:y, select *)
    (TWorker 0, rejecting); (TWorker 0, rejecting) ].    (* bob:y, select *)

(** The sample attack with a retry buffer for one pair, against a
    server that cannot be reached: the pair of worker 0 fills the
    buffer, that of worker 1 finds it full. *)
Definition refused_schedule : list (Tid * Env) :=
  [ (TMain, unreachable); (TMain, unreachable);
    (TWorker 0, unreachable); (TWorker 1, unreachable);  (* select *)
    (TWorker 0, unreachable); (TWorker 1, unreachable) ].

(** A worker has left before [main] has sent a pair. *)
Definition one_returned : State :=
  set_wg 1 (set_worker 0 {| ok := true; pc := Returned |} (init sample sample_pairs)).
(* ===================================================================== *)
(** * Facts about the string functions *)
(* ===================================================================== *)

Module StringsFacts.
Import Strings.

Lemma HasPrefix_app (p r : bytes) : HasPrefix (p ++ r) p = true.
Proof.
  induction p as [|c p IH]; simpl.
  - done.
  - destruct (decide (c = c)); [exact IH | done].
Qed.

Lemma HasPrefix_true (s p : bytes) :
  HasPrefix s p = true -> exists r, s = p ++ r.
Proof.
  revert s; induction p as [|c p IH]; intros s H.
  - by exists s.
  - destruct s as [|d s]; simpl in H; [done|].
    destruct (decide (c = d)) as [->|]; [|done].
    destruct (IH _ H) as [r ->]. by exists r.
Qed.

Lemma HasPrefix_false (s p : bytes) :
  HasPrefix s p = false -> forall r, s <> p ++ r.
Proof.
  intros H r ->. by rewrite HasPrefix_app in H.
Qed.

(** [Index] finds an instance, and no instance starts before it. *)
Lemma Index_Some (s sub : bytes) (i : nat) :
  Index s sub = Some i ->
  (exists post, s = take i s ++ sub ++ post /\ i <= length s) /\
  (forall pre post, s = pre ++ sub ++ post -> i <= length pre).
Proof.
  revert i; induction s as [|c s IH]; intros i; simpl.
  - destruct (HasPrefix [] sub) eqn:E; [|done].
    intros [= <-]. split; [|lia].
    destruct (HasPrefix_true _ _ E) as [r Hr]. exists r. simpl. split; [done|lia].
  - destruct (HasPrefix (c :: s) sub) eqn:E.
    + intros [= <-]. split; [|lia].
      destruct (HasPrefix_true _ _ E) as [r Hr]. exists r. simpl. split; [done|lia].
    + destruct (Index s sub) as [j|] eqn:Ej; [|done].
      simpl. intros [= <-].
      destruct (IH j eq_refl) as [[post [Hs Hle]] Hfirst]. split.
      * exists post. simpl. split; [by rewrite <- Hs | lia].
      * intros [|d pre] post' Heq.
        -- simpl in Heq. exfalso. by eapply HasPrefix_false.
        -- simpl in Heq. injection Heq as -> Heq. specialize (Hfirst _ _ Heq).
           simpl; lia.
Qed.

Lemma Index_None (s sub : bytes) :
  Index s sub = None -> forall pre post, s <> pre ++ sub ++ post.
Proof.
  induction s as [|c s IH]; simpl.
  - destruct (HasPrefix [] sub) eqn:E; [done|].
    intros _ [|d pre] post Heq; [|done]. by eapply HasPrefix_false.
  - destruct (HasPrefix (c :: s) sub) eqn:E; [done|].
    destruct (Index s sub) eqn:Ej; [done|]. intros _ [|d pre] post Heq.
    + by eapply HasPrefix_false.
    + simpl in Heq. injection Heq as -> Heq. by eapply IH.
Qed.

Lemma Index_is_Some (pre sub post : bytes) :
  exists i, Index (pre ++ sub ++ post) sub = Some i /\ i <= length pre.
Proof.
  destruct (Index (pre ++ sub ++ post) sub) as [i|] eqn:E.
  - exists i. split; [done|]. by eapply (proj2 (Index_Some _ _ _ E)).
  - exfalso. by eapply Index_None.
Qed.

(** The first instance of a one-byte separator. *)
Lemma Index_byte_first (c : ascii) (l p : bytes) :
  c ∉ l -> Index (l ++ c :: p) [c] = Some (length l).
Proof.
  intros Hl. destruct (Index_is_Some l [c] p) as [i [Hi Hle]].
  simpl in Hi. rewrite Hi. f_equal.
  destruct (decide (i = length l)) as [|Hne]; [done|]. exfalso.
  apply Index_Some in Hi as [[post [Hs _]] _].
  assert (Hlt : i < length l) by lia.
  assert (Hc : (l ++ c :: p) !! i = Some c).
  { rewrite Hs at 1. rewrite lookup_app_r; rewrite length_take, length_app; simpl; [|lia].
    replace (i - i `min` (length l + S (length p))) with 0 by lia. done. }
  rewrite lookup_app_l in Hc by done.
  apply Hl. by eapply list_elem_of_lookup_2.
Qed.

Lemma Index_byte_none (c : ascii) (s : bytes) :
  c ∉ s -> Index s [c] = None.
Proof.
  intros Hs. destruct (Index s [c]) as [i|] eqn:E; [|done]. exfalso.
  apply Index_Some in E as [[post [Heq _]] _].
  apply Hs. rewrite Heq. set_solver.
Qed.

Lemma Contains_byte (c : ascii) (s : bytes) :
  Contains s [c] = bool_decide (c ∈ s).
Proof.
  unfold Contains. case_bool_decide as H.
  - apply list_elem_of_split in H as [l1 [l2 ->]].
    destruct (Index_is_Some l1 [c] l2) as [i [Hi _]]. simpl in Hi. by rewrite Hi.
  - by rewrite Index_byte_none.
Qed.

(** [SplitN] with limit 2 at a one-byte separator. *)
Lemma SplitN2_none (c : ascii) (s : bytes) :
  c ∉ s -> SplitN s [c] 2 = [s].
Proof. intros H. simpl. by rewrite Index_byte_none. Qed.

Lemma SplitN2_first (c : ascii) (l p : bytes) :
  c ∉ l -> SplitN (l ++ c :: p) [c] 2 = [l; p].
Proof.
  intros H. simpl. rewrite Index_byte_first by done.
  rewrite take_app_length. f_equal. f_equal.
  replace (length l + 1) with (length (l ++ [c])) by (rewrite length_app; simpl; lia).
  replace (l ++ c :: p) with ((l ++ [c]) ++ p) by (by rewrite <- app_assoc).
  by rewrite drop_app_length.
Qed.

(** [TrimLeft] with a one-byte cutset removes the leading run of that
    byte and nothing else. *)
Lemma TrimLeft_run (c : ascii) (k : nat) (s : bytes) :
  head s <> Some c -> TrimLeft (replicate k c ++ s) [c] = s.
Proof.
  intros Hs. induction k as [|k IH]; simpl.
  - destruct s as [|d s]; [done|]. simpl.
    case_bool_decide as Hd; [|done].
    apply list_elem_of_singleton in Hd as ->. by simpl in Hs.
  - rewrite bool_decide_true by set_solver. exact IH.
Qed.

End StringsFacts.

(* ===================================================================== *)
(** * The header flags *)
(* ===================================================================== *)

Ltac by_computation :=
  lazymatch goal with
  | |- ?P => apply (@bool_decide_unpack P _); vm_compute; exact I
  end.

(** C10. [Headers.Set] fails with an error, and leaves the list alone,
    when the flag value has no colon.  Otherwise the value is split at
    its first colon: what precedes it is the key, what follows it,
    without its leading spaces, is the value of the header appended to
    the list. *)
Theorem Headers_Set_spec (hs : Headers) (val : bytes) :
  (":"%char ∉ val ->
   Headers_Set hs val = (hs, Some (B "invalid header: " ++ val))) /\
  (forall (k v : bytes) (n : nat),
     ":"%char ∉ k -> head v <> Some " "%char ->
     val = k ++ ":"%char :: replicate n " "%char ++ v ->
     Headers_Set hs val = (hs ++ [{| key := k; value := v |}], None)).
Proof.
  unfold Headers_Set. change (B ":") with [":"%char]. split.
  - intros H. rewrite StringsFacts.Contains_byte.
    by rewrite bool_decide_false.
  - intros k v n Hk Hv ->. rewrite StringsFacts.Contains_byte.
    rewrite bool_decide_true by set_solver. simpl negb. cbv iota.
    rewrite StringsFacts.SplitN2_first by done. simpl nth.
    change (B " ") with [" "%char].
    by rewrite StringsFacts.TrimLeft_run.
Qed.

Lemma Headers_Set_spec_witness :
  Headers_Set [] (B "X-Token:  a b: c")
  = ([{| key := B "X-Token"; value := B "a b: c" |}], None).
Proof.
  apply (proj2 (Headers_Set_spec [] (B "X-Token:  a b: c"))
           (B "X-Token") (B "a b: c") 2).
  - by_computation.
  - discriminate.
  - reflexivity.
Defined.

(* ===================================================================== *)
(** * The pair source *)
(* ===================================================================== *)

Lemma combined_line_app (sent : list Job) (text : bytes) :
  combined_line sent text = sent ++ combined_line [] text.
Proof.
  unfold combined_line. case_bool_decide; [by rewrite app_nil_r | done].
Qed.

Lemma combined_jobs_from (sent : list Job) (lines : list bytes) :
  foldl combined_line sent lines = sent ++ combined_jobs lines.
Proof.
  unfold combined_jobs. revert sent.
  induction lines as [|text lines IH]; intros sent; simpl.
  - by rewrite app_nil_r.
  - rewrite (IH (combined_line sent text)), (IH (combined_line [] text)).
    by rewrite (combined_line_app sent), app_assoc.
Qed.

Lemma combined_jobs_app (l1 l2 : list bytes) :
  combined_jobs (l1 ++ l2) = combined_jobs l1 ++ combined_jobs l2.
Proof.
  unfold combined_jobs at 1. rewrite foldl_app.
  apply combined_jobs_from.
Qed.

Lemma combined_jobs_cons (text : bytes) (lines : list bytes) :
  combined_jobs (text :: lines) = combined_line [] text ++ combined_jobs lines.
Proof. unfold combined_jobs at 1. simpl. apply combined_jobs_from. Qed.

(** C8. In the combined file, a line without a colon sends nothing (the
    jobs sent are those of the other lines), and a line with a colon
    sends exactly one job, at its place in the order of the lines: the
    login is the text before the first colon, the password all that
    follows it, further colons included. *)
Theorem combined_jobs_line (before after : list bytes) (text : bytes) :
  (":"%char ∉ text ->
   combined_jobs (before ++ text :: after) = combined_jobs before ++ combined_jobs after) /\
  (forall l p : bytes,
     ":"%char ∉ l -> text = l ++ ":"%char :: p ->
     combined_jobs (before ++ text :: after)
     = combined_jobs before ++ {| user := l; pass := p |} :: combined_jobs after).
Proof.
  rewrite combined_jobs_app, combined_jobs_cons.
  unfold combined_line. change (B ":") with [":"%char]. split.
  - intros H. by rewrite StringsFacts.SplitN2_none.
  - intros l p Hl ->. by rewrite StringsFacts.SplitN2_first.
Qed.

Lemma combined_jobs_line_witness :
  combined_jobs ([B "root:toor"] ++ B "no colon here" :: [B "admin:a:b"])
  = combined_jobs [B "root:toor"] ++ combined_jobs [B "admin:a:b"] /\
  combined_jobs ([B "root:toor"] ++ B "admin:a:b" :: [])
  = combined_jobs [B "root:toor"] ++ {| user := B "admin"; pass := B "a:b" |} :: combined_jobs [].
Proof.
  split.
  - apply (proj1 (combined_jobs_line [B "root:toor"] [B "admin:a:b"] (B "no colon here"))).
    by_computation.
  - apply (proj2 (combined_jobs_line [B "root:toor"] [] (B "admin:a:b"))
             (B "admin") (B "a:b")); [by_computation | reflexivity].
Defined.

Lemma matrix_inner (pass : bytes) (sent : list Job) (logins : list bytes) :
  foldl (fun sent user => sent ++ [{| user := user; pass := pass |}]) sent logins
  = sent ++ map (fun user => {| user := user; pass := pass |}) logins.
Proof.
  revert sent; induction logins as [|u logins IH]; intros sent; simpl.
  - by rewrite app_nil_r.
  - by rewrite IH, <- app_assoc.
Qed.

Lemma matrix_jobs_from (logins passwords : list bytes) (sent : list Job) :
  foldl (fun sent pass =>
           foldl (fun sent user => sent ++ [{| user := user; pass := pass |}])
                 sent logins)
        sent passwords
  = sent ++ flat_map (fun pass => map (fun user => {| user := user; pass := pass |}) logins)
                     passwords.
Proof.
  revert sent; induction passwords as [|p passwords IH]; intros sent; simpl.
  - by rewrite app_nil_r.
  - by rewrite IH, matrix_inner, <- app_assoc.
Qed.

Lemma matrix_jobs_cons (logins passwords : list bytes) (p : bytes) :
  matrix_jobs logins (p :: passwords)
  = map (fun user => {| user := user; pass := p |}) logins ++ matrix_jobs logins passwords.
Proof.
  unfold matrix_jobs. simpl. by rewrite !matrix_jobs_from, matrix_inner.
Qed.

(** The nested loops of matrix mode go through |L| * |P| jobs, and the
    job for the [i]-th password and the [j]-th login is the one at
    position [i * |L| + j]: the password changes in the outer loop, the
    login in the inner one. *)
Lemma matrix_jobs_index (logins passwords : list bytes) :
  length (matrix_jobs logins passwords) = length logins * length passwords /\
  (forall (i j : nat) (u p : bytes),
     passwords !! i = Some p -> logins !! j = Some u ->
     matrix_jobs logins passwords !! (i * length logins + j)
     = Some {| user := u; pass := p |}).
Proof.
  induction passwords as [|q passwords [IHlen IHnth]].
  - split; [simpl; lia | intros i j u p H; done].
  - rewrite matrix_jobs_cons. split.
    + rewrite length_app, length_map, IHlen. simpl. lia.
    + intros [|i] j u p Hp Hu; simpl in Hp.
      * injection Hp as ->. simpl.
        rewrite lookup_app_l by (rewrite length_map; by eapply lookup_lt_Some).
        change (map ?f ?l) with (f <$> l). by rewrite list_lookup_fmap, Hu.
      * rewrite lookup_app_r; rewrite length_map; [|simpl; lia].
        replace (S i * length logins + j - length logins) with (i * length logins + j)
          by (simpl; lia).
        by apply IHnth.
Qed.

(** [main] sends the pairs one by one, each behind those already in the
    buffer of [jobs], as long as the buffer has room. *)
Lemma main_sends_in_order (g : Globals) (s : State) (job : Job) (rest : list Job) :
  exited s = None -> main_pc s = Sending (job :: rest) ->
  length (jobs s) < numTasks g ->
  exists s', main_step g s = Some s' /\
             jobs s' = jobs s ++ [job] /\ main_pc s' = Sending rest.
Proof.
  intros Hex Hpc Hroom. unfold main_step. rewrite Hex, Hpc.
  apply Nat.ltb_lt in Hroom. rewrite Hroom. by eexists.
Qed.

Example sample_pairs_matrix :
  sample_pairs
  = [ {| user := B "alice"; pass := B "x" |}; {| user := B "bob"; pass := B "x" |};
      {| user := B "alice"; pass := B "y" |}; {| user := B "bob"; pass := B "y" |} ].
Proof. reflexivity. Qed.

(* ===================================================================== *)
(** * The request of an attempt *)
(* ===================================================================== *)

Section HeaderFolds.

Lemma values_for_cons (k : bytes) (e : Header) (hs : Headers) :
  values_for k (e :: hs)
  = if decide (Http.CanonicalMIMEHeaderKey (key e) = k) then value e :: values_for k hs
    else values_for k hs.
Proof.
  unfold values_for. rewrite filter_cons. by case_decide.
Qed.

Lemma values_for_app (k : bytes) (hs1 hs2 : Headers) :
  values_for k (hs1 ++ hs2) = values_for k hs1 ++ values_for k hs2.
Proof. unfold values_for. by rewrite filter_app, fmap_app. Qed.

(** A run of [Add] calls appends, under each key, the values given
    for it. *)
Lemma Add_fold (hs : Headers) (h : Http.Header) (k : bytes) :
  foldl (fun h e => Http.Add h (key e) (value e)) h hs !! k
  = match values_for k hs with
    | [] => h !! k
    | vs => Some (default [] (h !! k) ++ vs)
    end.
Proof.
  revert h; induction hs as [|e hs IH]; intros h; [done|].
  simpl foldl. rewrite IH, values_for_cons. unfold Http.Add.
  case_decide as Hk.
  - subst k. rewrite lookup_insert_eq. simpl.
    destruct (values_for _ hs); [done|]. by rewrite <- app_assoc.
  - by rewrite lookup_insert_ne.
Qed.

(** A run of [Set] calls leaves, under each key it names, the value
    given last. *)
Lemma Set_fold (hs : Headers) (h : Http.Header) (k : bytes) :
  foldl (fun h e => Http.Set_ h (key e) (value e)) h hs !! k
  = match last (values_for k hs) with
    | Some v => Some [v]
    | None => h !! k
    end.
Proof.
  revert h; induction hs as [|e hs IH]; intros h; [done|].
  simpl foldl. rewrite IH, values_for_cons. unfold Http.Set_.
  case_decide as Hk.
  - subst k. rewrite last_cons, lookup_insert_eq.
    by destruct (last (values_for _ hs)).
  - by rewrite lookup_insert_ne.
Qed.

End HeaderFolds.

(** The three loops over the header map, key by key. *)
Lemma request_header_lookup (g : Globals) (body k : bytes) :
  request_header g body !! k
  = match last (values_for k (headersReplace g)) with
    | Some v => Some [v]
    | None =>
        match values_for k (standard_headers g body) ++ values_for k (headersAdd g) with
        | [] => None
        | vs => Some vs
        end
    end.
Proof.
  unfold request_header. rewrite Set_fold.
  destruct (last (values_for k (headersReplace g))); [done|].
  rewrite !Add_fold, lookup_empty.
  destruct (values_for k (standard_headers g body)) as [|v vs] eqn:Estd; simpl.
  - by destruct (values_for k (headersAdd g)).
  - destruct (values_for k (headersAdd g)); [by rewrite app_nil_r | done].
Qed.

(** Repeated -h flags for one key accumulate, repeated -H flags leave
    the last value. *)
Example request_header_flags :
  let g := {| loginsStr := []; loginsFrom := []; passwordsStr := [];
              passwordsFrom := []; colonSeparatedFrom := [];
              firstOnly := false; invertedCondition := false;
              conditionIsRegexp := false; numTasks := 1; verbose := false;
              showAttempts := false; outputTo := [];
              headersAdd := [ {| key := B "accept"; value := B "text/html" |};
                              {| key := B "Accept"; value := B "*/*" |};
                              {| key := B "User-Agent"; value := B "curl" |} ];
              headersReplace := [ {| key := B "Content-Type"; value := B "text/plain" |};
                                  {| key := B "content-type"; value := B "text/xml" |} ];
              retryQueueLength := 0; Args := []; postURL := []; host := B "h";
              data := []; condition := []; rCondition := None; proxyURL := None |} in
  request_header g [] !! B "Accept" = Some [B "text/html"; B "*/*"] /\
  request_header g [] !! B "User-Agent" = Some [defaultUserAgent; B "curl"] /\
  request_header g [] !! B "Content-Type" = Some [B "text/xml"].
Proof. repeat split; vm_compute; reflexivity. Qed.

(** C7 does not hold of every request that goes out.  With the flag
    -h "User-Agent: curl" the header map of the request holds two
    values under User-Agent, the standard one and, appended to it, the
    one of the flag; but the User-Agent line of the request that is
    sent takes the first value alone, so that the value of the flag
    does not go out. *)
Lemma added_User_Agent_not_sent :
  let g := with_headersAdd [ {| key := B "User-Agent"; value := B "curl" |} ] sample in
  let req := new_request g {| user := B "alice"; pass := B "x" |} in
  Http.Hdr req !! B "User-Agent" = Some [B "Mozilla/5.0 (Hydra)"; B "curl"] /\
  Http.userAgent req = B "Mozilla/5.0 (Hydra)".
Proof. split; vm_compute; reflexivity. Qed.

(** C7, amended. In the header map of the request that a worker builds
    for a pair, key by key: a key named by the replace-list carries the
    single value that the last -H flag for it gave, whatever the
    standard headers and the add-list say; any other key carries its
    standard value, if it is one of the five standard keys, followed by
    the values of all -h flags for it, in the order of the flags.  This
    is the map; of what goes out the User-Agent line is the value of
    the last -H flag for User-Agent, or else the standard agent, and no
    -h flag changes it. *)
Theorem request_header_on_the_map (g : Globals) (job : Job) :
  let req := new_request g job in
  (forall k : bytes,
     Http.Hdr req !! k
     = match last (values_for k (headersReplace g)) with
       | Some v => Some [v]
       | None =>
           match values_for k
                   [ {| key := B "Host"; value := host g |};
                     {| key := B "User-Agent"; value := B "Mozilla/5.0 (Hydra)" |};
                     {| key := B "Content-Length";
                        value := B (pretty (length (postData g job))) |};
                     {| key := B "Content-Type";
                        value := B "application/x-www-form-urlencoded" |};
                     {| key := B "Connection"; value := B "Keep-Alive" |} ]
                 ++ values_for k (headersAdd g) with
           | [] => None
           | vs => Some vs
           end
       end) /\
  Http.userAgent req
  = default (B "Mozilla/5.0 (Hydra)")
            (last (values_for (B "User-Agent") (headersReplace g))).
Proof.
  intros req.
  assert (Hmap : forall k : bytes,
     Http.Hdr req !! k
     = match last (values_for k (headersReplace g)) with
       | Some v => Some [v]
       | None =>
           match values_for k (standard_headers g (postData g job))
                 ++ values_for k (headersAdd g) with
           | [] => None
           | vs => Some vs
           end
       end) by (intros k; apply request_header_lookup).
  split; [exact Hmap|].
  unfold Http.userAgent, Http.Get.
  change (Http.CanonicalMIMEHeaderKey (B "User-Agent")) with (B "User-Agent").
  rewrite Hmap.
  destruct (last (values_for (B "User-Agent") (headersReplace g))); [done|].
  change (values_for (B "User-Agent") (standard_headers g (postData g job)))
    with [defaultUserAgent].
  reflexivity.
Qed.

(** Two -h flags and two -H flags. *)
Lemma request_header_on_the_map_witness :
  let g := with_headersReplace [ {| key := B "Content-Type"; value := B "text/plain" |};
                                 {| key := B "content-type"; value := B "text/xml" |} ]
             (with_headersAdd [ {| key := B "accept"; value := B "text/html" |};
                                {| key := B "Accept"; value := B "*/*" |} ] sample) in
  let req := new_request g {| user := B "alice"; pass := B "x" |} in
  Http.Hdr req !! B "Accept" = Some [B "text/html"; B "*/*"] /\
  Http.Hdr req !! B "Content-Type" = Some [B "text/xml"] /\
  Http.Hdr req !! B "Content-Length" = Some [B "17"] /\
  Http.userAgent req = B "Mozilla/5.0 (Hydra)".
Proof.
  pose proof (request_header_on_the_map
    (with_headersReplace [ {| key := B "Content-Type"; value := B "text/plain" |};
                           {| key := B "content-type"; value := B "text/xml" |} ]
       (with_headersAdd [ {| key := B "accept"; value := B "text/html" |};
                          {| key := B "Accept"; value := B "*/*" |} ] sample))
    {| user := B "alice"; pass := B "x" |}) as [Hmap Hua].
  split; [|split; [|split]];
    [rewrite Hmap; vm_compute; reflexivity.. | rewrite Hua; reflexivity].
Defined.

Module ReplaceFacts.
Import Strings StringsFacts.

Lemma replace_loop_spec (old new : bytes) (fuel : nat) (s : bytes) :
  old <> [] -> length s <= fuel ->
  ReplacedAll old new s (replace_loop fuel s old new).
Proof.
  intros Hold. revert s; induction fuel as [|fuel IH]; intros s Hlen; simpl.
  - destruct s; [|simpl in Hlen; lia].
    apply ReplacedAll_none. intros pre post H.
    symmetry in H. apply app_eq_nil in H as [_ H]. by apply app_eq_nil in H as [? _].
  - destruct (Index s old) as [j|] eqn:E.
    + destruct (Index_Some _ _ _ E) as [[post [Hs Hj]] Hfirst].
      assert (Hpre : length (take j s) = j) by (rewrite length_take; lia).
      assert (Hdrop : drop (j + length old) s = post).
      { rewrite Hs at 1. rewrite app_assoc.
        replace (j + length old) with (length (take j s ++ old))
          by (rewrite length_app; lia).
        by rewrite drop_app_length. }
      rewrite Hdrop. rewrite Hs at 1.
      apply ReplacedAll_next.
      * intros pre' post' Heq. rewrite <- Hs in Heq.
        rewrite Hpre. by eapply Hfirst.
      * apply IH. apply (f_equal length) in Hs.
        rewrite !length_app in Hs. destruct old; [done|]. simpl in Hs. lia.
    + apply ReplacedAll_none. by apply Index_None.
Qed.

(** [strings.Replace] replaces every instance, from left to right. *)
Lemma Replace_spec (old new s : bytes) :
  old <> [] -> ReplacedAll old new s (Replace s old new).
Proof. intros H. by apply replace_loop_spec. Qed.

(** ... and what it returns is the only such string. *)
Lemma ReplacedAll_unique (old new s r1 r2 : bytes) :
  ReplacedAll old new s r1 -> ReplacedAll old new s r2 -> r1 = r2.
Proof.
  intros H1; revert r2.
  induction H1 as [s Hnone | pre post r Hfirst Hrest IH]; intros r2 H2.
  - inversion H2 as [s' Hnone' | pre' post' r' Hfirst' Hrest' Heq]; subst; [done|].
    by exfalso; eapply Hnone.
  - inversion H2 as [s' Hnone' | pre' post' r' Hfirst' Hrest' Heq]; subst.
    + by exfalso; eapply Hnone'.
    + assert (Hlen : length pre' = length pre).
      { apply Nat.le_antisymm; [by eapply Hfirst' | by eapply Hfirst]. }
      apply app_inj_1 in Heq as [-> Heq]; [|done].
      apply app_inv_head in Heq as ->. f_equal. f_equal. by apply IH.
Qed.

End ReplaceFacts.

(** C6 does not hold as the specification words it: with the template
    "^P^USER^SS^" and the login "A", the template has one instance of
    ^USER^ and none of ^PASS^, so replacing the instances of the
    template gives "^PASS^"; the program replaces ^PASS^ in what the
    first replacement returned, and sends the bare password. *)
Lemma postData_not_by_occurrences :
  let g := with_data (B "^P^USER^SS^") sample in
  let job := {| user := B "A"; pass := B "x" |} in
  Strings.Index (data g) PASS = None /\
  postData_by_occurrences g job = B "^PASS^" /\
  postData g job = B "x" /\
  postData g job <> postData_by_occurrences g job.
Proof. vm_compute. repeat split; discriminate. Qed.

(** C6, amended. The body of the request is the template with every
    instance of ^USER^ replaced by the query-escaped login and then, in
    the result of that replacement, every instance of ^PASS^ replaced by
    the query-escaped password; instances are taken from left to right
    without overlap. *)
Theorem postData_spec (g : Globals) (job : Job) (r : bytes) :
  r = postData g job <->
  exists mid : bytes,
    ReplacedAll USER (Url.QueryEscape (user job)) (data g) mid /\
    ReplacedAll PASS (Url.QueryEscape (pass job)) mid r.
Proof.
  assert (HU : USER <> []) by discriminate.
  assert (HP : PASS <> []) by discriminate.
  split.
  - intros ->. exists (Strings.Replace (data g) USER (Url.QueryEscape (user job))).
    split; by apply ReplaceFacts.Replace_spec.
  - intros [mid [Hmid Hr]].
    assert (mid = Strings.Replace (data g) USER (Url.QueryEscape (user job))) as ->
      by (eapply ReplaceFacts.ReplacedAll_unique; [exact Hmid | by apply ReplaceFacts.Replace_spec]).
    eapply ReplaceFacts.ReplacedAll_unique; [exact Hr | by apply ReplaceFacts.Replace_spec].
Qed.

(** On the usual template the two readings agree. *)
Example postData_sample :
  postData sample {| user := B "a b"; pass := B "x&y" |} = B "user=a+b&pass=x%26y" /\
  postData_by_occurrences sample {| user := B "a b"; pass := B "x&y" |}
  = B "user=a+b&pass=x%26y".
Proof. split; vm_compute; reflexivity. Qed.

(* ===================================================================== *)
(** * The checks of the credential flags *)
(* ===================================================================== *)

Lemma nonempty_true (s : bytes) : s <> [] -> nonempty s = true.
Proof. intros H. unfold nonempty. by rewrite bool_decide_false. Qed.

Lemma nonempty_false (s : bytes) : s = [] -> nonempty s = false.
Proof. by intros ->. Qed.

(** C9 does not hold as stated: with both -l and -L and three
    arguments, the process prints the message of [log.Fatal] and exits
    with status 1, and the usage text is not printed. *)
Lemma check_flags_without_usage :
  let g := with_loginsFrom (B "users.txt") sample in
  conflicting g /\
  check_flags g = Some ([Log (B "both -l and -L are specified")], 1%Z) /\
  ~ (exists d, check_flags g = Some (d, 1%Z) /\ (exists msg, Log msg ∈ d) /\ Usage ∈ d).
Proof.
  intros g. split; [left; split; discriminate|]. split; [reflexivity|].
  intros [d [Hd [_ Hu]]]. vm_compute in Hd. injection Hd as <-.
  apply list_elem_of_singleton in Hu. discriminate.
Qed.

(** C9, amended. With conflicting credential flags, or with missing
    logins or passwords, the process exits with status 1 in the checks at
    the head of [main], before the workers are started: with three
    arguments it prints one message, without the usage text; with any
    other number of arguments it prints the usage text, without a
    message. *)
Theorem check_flags_fatal (g : Globals) :
  conflicting g \/ missing g ->
  exists d, check_flags g = Some (d, 1%Z) /\
            if length (Args g) =? 3 then exists msg, d = [Log msg] else d = [Usage].
Proof.
  intros H. unfold check_flags.
  destruct (length (Args g) =? 3); simpl; [|by eexists].
  destruct (decide (loginsStr g = [])) as [El|El];
    [rewrite (nonempty_false _ El) | rewrite (nonempty_true _ El)];
  (destruct (decide (loginsFrom g = [])) as [EL|EL];
    [rewrite (nonempty_false _ EL) | rewrite (nonempty_true _ EL)]);
  (destruct (decide (passwordsStr g = [])) as [Ep|Ep];
    [rewrite (nonempty_false _ Ep) | rewrite (nonempty_true _ Ep)]);
  (destruct (decide (passwordsFrom g = [])) as [EP|EP];
    [rewrite (nonempty_false _ EP) | rewrite (nonempty_true _ EP)]);
  (destruct (decide (colonSeparatedFrom g = [])) as [EC|EC];
    [rewrite (nonempty_false _ EC) | rewrite (nonempty_true _ EC)]);
  simpl;
  first [ eexists; split; [reflexivity | by eexists]
        | exfalso; unfold conflicting, missing in H; tauto ].
Qed.

Lemma check_flags_fatal_witness :
  exists d, check_flags (with_loginsFrom (B "users.txt") sample) = Some (d, 1%Z) /\
            if length (Args (with_loginsFrom (B "users.txt") sample)) =? 3
            then exists msg, d = [Log msg] else d = [Usage].
Proof.
  apply (check_flags_fatal (with_loginsFrom (B "users.txt") sample)).
  left. left. split; discriminate.
Defined.

(* ===================================================================== *)
(** * The workers *)
(* ===================================================================== *)

Lemma Contains_spec (s sub : bytes) :
  Strings.Contains s sub = true <-> exists pre post, s = pre ++ sub ++ post.
Proof.
  unfold Strings.Contains. split.
  - destruct (Strings.Index s sub) as [i|] eqn:E; [|done]. intros _.
    apply StringsFacts.Index_Some in E as [[post [Hs _]] _]. eauto.
  - intros [pre [post ->]].
    by destruct (StringsFacts.Index_is_Some pre sub post) as [i [-> _]].
Qed.

(** A worker that can move does what its position says. *)
Lemma worker_step_at (g : Globals) (e : Env) (n : nat) (w : Worker) (s : State) :
  exited s = None -> workers s !! n = Some w ->
  worker_step g e n s
  = match pc w with
    | AtSelect => Some (select_step e n w s)
    | AtAttempt job => Some (attempt_step g e n w job s)
    | AtLock job =>
        if m_locked s then None
        else Some (goto n (ok w) (AtFprintf job) (set_m_locked true s))
    | AtFprintf job =>
        if out_closed s then Some (goto n (ok w) (AtUnlock job (Some ErrClosed)) s)
        else Some (goto n (ok w) (AtUnlock job None)
                     (set_out (out s ++ [result_line job]) s))
    | AtUnlock job err =>
        Some (goto n (ok w) (if firstOnly g then AtExitLock else AtSelect)
                (log_error err (set_m_locked false s)))
    | AtExitLock =>
        if m_locked s then None
        else Some (goto n (ok w) AtExitClose (set_m_locked true s))
    | AtExitClose =>
        Some (goto n (ok w)
                (AtExitUnlock (if out_closed s then Some ErrClosed else None))
                (set_out_closed true s))
    | AtExitUnlock err =>
        Some (goto n (ok w) AtOsExit (log_error err (set_m_locked false s)))
    | AtOsExit => Some (set_exited (Some 0%Z) s)
    | Returned => None
    end.
Proof. intros Hex Hw. unfold worker_step. by rewrite Hex, Hw. Qed.

Lemma goto_lookup (n : nat) (b : bool) (p : Pc) (w : Worker) (s : State) :
  workers s !! n = Some w ->
  workers (goto n b p s) !! n = Some {| ok := b; pc := p |}.
Proof.
  intros Hw. simpl. apply list_lookup_insert_eq. by eapply lookup_lt_Some.
Qed.

Lemma log_error_workers (err : error) (s : State) :
  workers (log_error err s) = workers s.
Proof. by destruct err. Qed.

Lemma log_error_exited (err : error) (s : State) :
  exited (log_error err s) = exited s.
Proof. by destruct err. Qed.

(** What an attempt leaves untouched. *)
Lemma attempt_step_frame (g : Globals) (e : Env) (n : nat) (w : Worker)
    (job : Job) (s : State) :
  let s' := attempt_step g e n w job s in
  jobs s' = jobs s /\ jobs_closed s' = jobs_closed s /\ wg s' = wg s /\
  m_locked s' = m_locked s /\ out s' = out s /\ out_closed s' = out_closed s /\
  exited s' = exited s /\ main_pc s' = main_pc s.
Proof.
  unfold attempt_step, retry_trySend.
  destruct (showAttempts g), (server e (new_request g job)), (verbose g); simpl;
    repeat match goal with |- context [if ?b then _ else _] => destruct b; simpl end;
    done.
Qed.

(** C5. An attempt that ends in a connection error or in an error of
    reading the body never blocks and never ends the process: the worker
    logs the error, sends the pair on [retry] when the buffer has room
    and drops it otherwise, and is back at the top of its loop; the
    queue of fresh pairs, the sink and the other goroutines are as they
    were. *)
Theorem transient_error_requeues (g : Globals) (e : Env) (n : nat)
    (w : Worker) (job : Job) (s : State) (err : bytes) :
  exited s = None -> workers s !! n = Some w -> pc w = AtAttempt job ->
  server e (new_request g job) = Http.DoError err \/
  (exists header, server e (new_request g job) = Http.ReadError header err) ->
  exists s',
    worker_step g e n s = Some s' /\
    last (stderr s') = Some (Log err) /\
    retry s' = (if length (retry s) <? retryQueueLength g
                then retry s ++ [job] else retry s) /\
    workers s' = <[n := {| ok := ok w; pc := AtSelect |}]> (workers s) /\
    exited s' = None /\
    jobs s' = jobs s /\ jobs_closed s' = jobs_closed s /\ wg s' = wg s /\
    out s' = out s /\ out_closed s' = out_closed s /\ m_locked s' = m_locked s /\
    main_pc s' = main_pc s.
Proof.
  intros Hex Hw Hpc Hreply.
  rewrite (worker_step_at g e n w s Hex Hw), Hpc.
  assert (Hlast : forall (d : list Diag) x, last (d ++ [x]) = Some x)
    by (intros; apply last_snoc).
  unfold attempt_step, retry_trySend.
  destruct Hreply as [-> | [header ->]]; eexists;
    (split; [reflexivity|]);
    destruct (showAttempts g), (verbose g); simpl;
    destruct (length (retry s) <? retryQueueLength g); simpl;
    rewrite ?Hlast, ?Hex; done.
Qed.

Lemma transient_error_requeues_witness :
  exists s',
    worker_step sample unreachable 0
      (set_worker 0 {| ok := true; pc := AtAttempt {| user := B "alice"; pass := B "y" |} |}
         (init sample [])) = Some s' /\
    last (stderr s') = Some (Log (B "connection refused")) /\
    retry s' = [{| user := B "alice"; pass := B "y" |}] /\
    workers s' = [{| ok := true; pc := AtSelect |}; {| ok := true; pc := AtSelect |}] /\
    exited s' = None /\
    jobs s' = [] /\ jobs_closed s' = false /\ wg s' = 2 /\
    out s' = [] /\ out_closed s' = false /\ m_locked s' = false /\
    main_pc s' = Sending [].
Proof.
  apply (transient_error_requeues sample unreachable 0
           {| ok := true; pc := AtAttempt {| user := B "alice"; pass := B "y" |} |}
           {| user := B "alice"; pass := B "y" |}
           (set_worker 0 {| ok := true;
                            pc := AtAttempt {| user := B "alice"; pass := B "y" |} |}
              (init sample []))
           (B "connection refused")); [reflexivity | reflexivity | reflexivity |].
  left. reflexivity.
Defined.

(** The [default] case of the first [select]: a worker that finds no
    pair in [jobs] and none in [retry] leaves its loop, whether or not
    [jobs] has been closed. *)
Lemma select_default_returns (g : Globals) (e : Env) (n : nat) (w : Worker) (s : State) :
  exited s = None -> workers s !! n = Some w -> pc w = AtSelect ->
  ok w = true -> jobs s = [] -> retry s = [] -> jobs_closed s = false ->
  exists s', worker_step g e n s = Some s' /\
             workers s' !! n = Some {| ok := true; pc := Returned |} /\
             jobs_closed s' = false /\ wg s' = wg s - 1 /\
             main_pc s' = main_pc s.
Proof.
  intros Hex Hw Hpc Hok Hjobs Hretry Hopen.
  rewrite (worker_step_at g e n w s Hex Hw), Hpc.
  unfold select_step. rewrite Hok, Hjobs, Hretry, Hopen. simpl.
  eexists. split; [reflexivity|]. simpl. split; [|done].
  apply list_lookup_insert_eq. by eapply lookup_lt_Some.
Qed.

(** C2, on the program. At the start of the sample attack [jobs] and
    [retry] are empty and [jobs] is open, [main] still having every pair
    to send; worker 0, when it runs then, does not wait: it takes the
    [default] case, leaves its loop and never moves again, while [jobs]
    stays open. *)
Theorem worker_returns_while_jobs_open :
  let s := init sample sample_pairs in
  jobs s = [] /\ retry s = [] /\ jobs_closed s = false /\
  main_pc s = Sending sample_pairs /\
  exists s', worker_step sample welcoming 0 s = Some s' /\
             workers s' !! 0 = Some {| ok := true; pc := Returned |} /\
             jobs_closed s' = false /\
             main_pc s' = Sending sample_pairs /\
             worker_step sample welcoming 0 s' = None.
Proof.
  simpl. repeat split. eexists. split; [reflexivity|]. by repeat split.
Qed.

(** What follows from it: when both workers run before [main] sends,
    both return; [main] fills the buffer of [jobs] with two pairs and
    then waits for room for ever, the process has not exited, and no
    pair was tried. *)
Lemma early_workers_strand_the_pairs :
  exists s',
    run sample early_schedule (init sample sample_pairs) = Some s' /\
    exited s' = None /\
    jobs s' = [ {| user := B "alice"; pass := B "x" |};
                {| user := B "bob"; pass := B "x" |} ] /\
    main_pc s' = Sending [ {| user := B "alice"; pass := B "y" |};
                           {| user := B "bob"; pass := B "y" |} ] /\
    forall t e, step sample t e s' = None.
Proof.
  eexists. split; [vm_compute; reflexivity|]. repeat split.
  intros [|[|[|n]]] e; reflexivity.
Qed.

(** [safeExit] after a reported pair, lines 246-248 and 130-139: a worker
    that has written in first-match-only mode and is not overtaken takes
    the mutex, closes the sink while it holds it, releases it and ends
    the process with status 0, whatever is still pending. *)
Lemma first_match_exits (g : Globals) (e : Env) (n : nat) (w : Worker)
    (job : Job) (s : State) :
  firstOnly g = true -> exited s = None -> workers s !! n = Some w ->
  pc w = AtUnlock job None ->
  exists s2 s',
    run g (replicate 2 (TWorker n, e)) s = Some s2 /\
    m_locked s2 = true /\
    workers s2 !! n = Some {| ok := ok w; pc := AtExitClose |} /\
    run g (replicate 3 (TWorker n, e)) s2 = Some s' /\
    out_closed s' = true /\ m_locked s' = false /\ exited s' = Some 0%Z /\
    out s' = out s /\ jobs s' = jobs s /\ retry s' = retry s /\
    main_pc s' = main_pc s.
Proof.
  intros Hfirst Hex Hw Hpc.
  set (s1 := goto n (ok w) AtExitLock (set_m_locked false s)).
  set (s2 := goto n (ok w) AtExitClose (set_m_locked true s1)).
  assert (H1 : workers s1 !! n = Some {| ok := ok w; pc := AtExitLock |})
    by (by eapply goto_lookup).
  assert (H2 : workers s2 !! n = Some {| ok := ok w; pc := AtExitClose |})
    by (by eapply goto_lookup).
  exists s2. eexists. split; [|split; [reflexivity|split; [exact H2|]]].
  - simpl run. rewrite (worker_step_at g e n w s Hex Hw), Hpc, Hfirst.
    simpl log_error. fold s1.
    rewrite (worker_step_at g e n _ s1 Hex H1). reflexivity.
  - split.
    + simpl run. rewrite (worker_step_at g e n _ s2 Hex H2). cbn [ok pc].
      set (s3 := goto n (ok w) _ (set_out_closed true s2)).
      assert (H3 : workers s3 !! n
                   = Some {| ok := ok w;
                             pc := AtExitUnlock (if out_closed s2 then Some ErrClosed else None) |})
        by (by eapply goto_lookup).
      rewrite (worker_step_at g e n _ s3 Hex H3). cbn [ok pc].
      set (s4 := goto n (ok w) AtOsExit _).
      assert (Hex4 : exited s4 = None)
        by (subst s4; simpl; by rewrite log_error_exited).
      assert (H4 : workers s4 !! n = Some {| ok := ok w; pc := AtOsExit |})
        by (eapply goto_lookup; rewrite log_error_workers; exact H3).
      rewrite (worker_step_at g e n _ s4 Hex4 H4). reflexivity.
    + simpl. destruct (out_closed s); done.
Qed.

(** C4, on the program. In first-match-only mode with two workers, both
    holding a pair that the server accepts: worker 0 writes its line and
    releases the mutex; before it takes the mutex again in [safeExit],
    worker 1 takes it and writes its line too; then worker 0 closes the
    sink under the mutex and the process exits with status 0.  Two lines
    have been written. *)
Theorem first_match_race_writes_two_lines :
  exists s',
    run (with_firstOnly sample) racing_schedule (init (with_firstOnly sample) sample_pairs)
    = Some s' /\
    out s' = [ result_line {| user := B "alice"; pass := B "x" |};
               result_line {| user := B "bob"; pass := B "x" |} ] /\
    out_closed s' = true /\
    exited s' = Some 0%Z.
Proof. eexists. split; [vm_compute; reflexivity|]. by repeat split. Qed.

(* ===================================================================== *)
(** * Beyond the specification: the header flags *)
(* ===================================================================== *)

Lemma TrimLeft_head (c : ascii) (s : bytes) :
  head (Strings.TrimLeft s [c]) <> Some c.
Proof.
  induction s as [|d s IH]; simpl; [done|].
  case_bool_decide as Hd; [done|]. simpl. intros [= ->]. apply Hd. set_solver.
Qed.

(** X1. [Headers.Set] succeeds exactly on the values with a colon, and
    never touches the headers already in the list: they stay, in order,
    in front of the new one.  Every header it appends has a key without
    a colon and a value without a leading space, so a list built by
    [Set] calls alone holds only such headers. *)
Theorem Headers_Set_invariant (hs : Headers) (val : bytes) :
  ((Headers_Set hs val).2 = None <-> ":"%char ∈ val) /\
  (exists new, (Headers_Set hs val).1 = hs ++ new /\ length new <= 1 /\
               Forall set_built new).
Proof.
  unfold Headers_Set. change (B ":") with [":"%char].
  rewrite StringsFacts.Contains_byte. case_bool_decide as Hc; cbn [negb fst snd].
  - split; [done|].
    apply list_elem_of_split_l in Hc as (l & p & -> & Hl).
    rewrite StringsFacts.SplitN2_first by done. cbn [nth].
    eexists [_]. split; [done|]. split; [simpl; lia|].
    constructor; [|constructor]. split; [done|]. simpl.
    change (B " ") with [" "%char]. apply TrimLeft_head.
  - split; [split; [done | by intros ?]|].
    exists []. rewrite app_nil_r. split; [done|]. split; [simpl; lia | constructor].
Qed.

(** X2. [Headers.String] and [Headers.Set] fit together: the text that
    [String] prints for a header built by [Set] is read back by [Set] as
    that header. *)
Theorem Headers_Set_String (hs : Headers) (h : Header) :
  set_built h ->
  Headers_Set hs (Headers_String [h]) = (hs ++ [h], None).
Proof.
  destruct h as [k v]. intros [Hk Hv]. simpl in Hk, Hv.
  unfold Headers_Set, Headers_String. simpl Strings.Join.
  change (B ":") with [":"%char].
  change (k ++ B ": " ++ v) with (k ++ ":"%char :: replicate 1 " "%char ++ v).
  rewrite StringsFacts.Contains_byte, bool_decide_true by set_solver. simpl negb. cbv iota.
  rewrite StringsFacts.SplitN2_first by done. cbn [nth].
  change (B " ") with [" "%char].
  by rewrite (StringsFacts.TrimLeft_run " "%char 1 v Hv
              : Strings.TrimLeft (" "%char :: v) [" "%char] = v).
Qed.

Lemma Headers_Set_String_witness :
  Headers_Set [] (Headers_String [{| key := B "Cookie"; value := B "a=b: c" |}])
  = ([] ++ [{| key := B "Cookie"; value := B "a=b: c" |}], None).
Proof.
  apply (Headers_Set_String [] {| key := B "Cookie"; value := B "a=b: c" |}).
  split; [by_computation | discriminate].
Defined.

(* ===================================================================== *)
(** * Beyond the specification: the pair source *)
(* ===================================================================== *)

Lemma combined_line_nil (text : bytes) :
  combined_line [] text
  = match Strings.SplitN text [":"%char] 2 with
    | [l; p] => [{| user := l; pass := p |}]
    | _ => []
    end.
Proof.
  unfold combined_line. change (B ":") with [":"%char].
  destruct (decide (":"%char ∈ text)) as [Hc|Hc].
  - apply list_elem_of_split_l in Hc as (l & p & -> & Hl).
    by rewrite StringsFacts.SplitN2_first.
  - by rewrite StringsFacts.SplitN2_none.
Qed.

(** The pairs of a combined file, written as login:pass, are the lines
    that have a colon, in the order of the file. *)
Lemma combined_jobs_texts (lines : list bytes) :
  pair_text <$> combined_jobs lines = filter (fun text => ":"%char ∈ text) lines.
Proof.
  induction lines as [|text lines IH]; [done|].
  rewrite combined_jobs_cons, fmap_app, IH, filter_cons, combined_line_nil.
  case_decide as Hc.
  - apply list_elem_of_split_l in Hc as (l & p & -> & Hl).
    by rewrite StringsFacts.SplitN2_first.
  - by rewrite StringsFacts.SplitN2_none.
Qed.

(** The login:pass texts of pairs whose logins have no colon, taken as
    the lines of a combined file, are read as those very pairs.  (A
    colon in a login moves the split: the pair cannot be written in a
    combined file.) *)
Lemma combined_jobs_pair_texts (pairs : list Job) :
  Forall (fun job => ":"%char ∉ user job) pairs ->
  combined_jobs (pair_text <$> pairs) = pairs.
Proof.
  induction 1 as [|[u p] pairs Hu _ IH]; [done|].
  rewrite fmap_cons, combined_jobs_cons, IH, combined_line_nil.
  unfold pair_text. cbn [user pass] in *.
  change (u ++ B ":" ++ p) with (u ++ ":"%char :: p).
  by rewrite StringsFacts.SplitN2_first.
Qed.

Lemma matrix_jobs_flat (logins passwords : list bytes) :
  matrix_jobs logins passwords
  = flat_map (fun pass => map (fun user => {| user := user; pass := pass |}) logins)
             passwords.
Proof. unfold matrix_jobs. by rewrite matrix_jobs_from. Qed.

(** The pairs of the matrix are those of the cartesian product. *)
Lemma matrix_jobs_product (logins passwords : list bytes) (job : Job) :
  job ∈ matrix_jobs logins passwords <-> user job ∈ logins /\ pass job ∈ passwords.
Proof.
  rewrite matrix_jobs_flat. destruct job as [u p]. simpl.
  rewrite list_elem_of_In, in_flat_map. split.
  - intros (q & Hq & Hj). apply in_map_iff in Hj as (v & [= -> ->] & Hv).
    by rewrite !list_elem_of_In.
  - rewrite !list_elem_of_In. intros [Hu Hp]. exists p. split; [done|].
    apply in_map_iff. by exists u.
Qed.

Module SplitFacts.
Import Strings StringsFacts.

Lemma Index_byte_None_notin (c : ascii) (s : bytes) :
  Index s [c] = None -> c ∉ s.
Proof.
  intros H Hc. apply list_elem_of_split in Hc as (l & p & ->).
  by eapply (Index_None _ _ H l p).
Qed.

Lemma Index_byte_Some (c : ascii) (s : bytes) (m : nat) :
  Index s [c] = Some m ->
  s = take m s ++ c :: drop (m + 1) s /\ (c ∉ take m s) /\ m < length s.
Proof.
  intros H. destruct (Index_Some _ _ _ H) as [[post [Hs Hm]] Hfirst].
  assert (Hlt : m < length s).
  { apply (f_equal length) in Hs. rewrite length_app, length_take in Hs.
    simpl in Hs. lia. }
  assert (Hdrop : drop (m + 1) s = post).
  { rewrite Hs at 1. replace (m + 1) with (length (take m s ++ [c]))
      by (rewrite length_app, length_take; simpl; lia).
    change (take m s ++ [c] ++ post) with (take m s ++ ([c] ++ post)).
    rewrite app_assoc. by rewrite drop_app_length. }
  split; [by rewrite Hdrop|]. split; [|done].
  intros Hc. apply list_elem_of_split in Hc as (l & p & Hl).
  rewrite Hs in Hfirst. specialize (Hfirst l (p ++ [c] ++ post)).
  rewrite Hl in Hfirst at 1.
  assert (length (take m s) <= length l) as Hle.
  { rewrite length_take. rewrite Nat.min_l by lia. apply Hfirst.
    by rewrite <- !app_assoc. }
  rewrite Hl, length_app in Hle. simpl in Hle. lia.
Qed.

Lemma SplitN_nonempty (c : ascii) (n : nat) (s : bytes) :
  0 < n -> SplitN s [c] n <> [].
Proof.
  destruct n as [|[|n]]; [lia | done |]. intros _. simpl.
  by destruct (Index s [c]).
Qed.

Lemma SplitN_Join (c : ascii) (n : nat) (s : bytes) :
  0 < n -> Join (SplitN s [c] n) [c] = s.
Proof.
  revert s; induction n as [|n IH]; intros s Hn; [lia|].
  destruct n as [|n]; [done|].
  change (SplitN s [c] (S (S n)))
    with (match Index s [c] with
          | None => [s]
          | Some m => take m s :: SplitN (drop (m + length [c]) s) [c] (S n)
          end).
  destruct (Index s [c]) as [m|] eqn:E; [|done].
  destruct (Index_byte_Some _ _ _ E) as [Hs _]. simpl length.
  pose proof (SplitN_nonempty c (S n) (drop (m + 1) s) ltac:(lia)) as Hne.
  specialize (IH (drop (m + 1) s) ltac:(lia)).
  destruct (SplitN (drop (m + 1) s) [c] (S n)) as [|x rest] eqn:Er; [done|].
  change (Join (take m s :: x :: rest) [c])
    with (take m s ++ [c] ++ Join (x :: rest) [c]).
  rewrite IH. by rewrite Hs at 3.
Qed.

Lemma SplitN_pieces (c : ascii) (n : nat) (s : bytes) :
  length s < n -> Forall (fun piece => c ∉ piece) (SplitN s [c] n).
Proof.
  revert s; induction n as [|n IH]; intros s Hn; [lia|].
  destruct n as [|n].
  - destruct s; [|simpl in Hn; lia]. repeat constructor. set_solver.
  - change (SplitN s [c] (S (S n)))
      with (match Index s [c] with
            | None => [s]
            | Some m => take m s :: SplitN (drop (m + length [c]) s) [c] (S n)
            end).
    destruct (Index s [c]) as [m|] eqn:E.
    + destruct (Index_byte_Some _ _ _ E) as (_ & Hfree & Hlt).
      constructor; [done|]. apply IH. rewrite length_drop. simpl. lia.
    + repeat constructor. by apply Index_byte_None_notin.
Qed.

End SplitFacts.

(** X6. The logins of -l and the passwords of -p, lines 383 and 389: the
    flag value is cut at every colon.  There is always at least one
    piece, no piece has a colon, and the pieces joined by colons are the
    flag value again; so an empty piece, as in "a::b", is an empty
    login, and a login with a colon cannot be given inline. *)
Theorem Split_colon (s : bytes) :
  Strings.Split s (B ":") <> [] /\
  Forall (fun piece => ":"%char ∉ piece) (Strings.Split s (B ":")) /\
  Strings.Join (Strings.Split s (B ":")) (B ":") = s.
Proof.
  unfold Strings.Split. change (B ":") with [":"%char]. split; [|split].
  - apply SplitFacts.SplitN_nonempty. lia.
  - apply SplitFacts.SplitN_pieces. lia.
  - apply SplitFacts.SplitN_Join. lia.
Qed.

(* ===================================================================== *)
(** * Beyond the specification: the checks and the evaluator *)
(* ===================================================================== *)

(** X7. The configurations that pass the checks at the head of [main]
    are exactly those with three arguments whose credential flags
    neither conflict nor leave the logins or the passwords out: either
    -C alone, or one of -l and -L together with one of -p and -P. *)
Theorem check_flags_passes (g : Globals) :
  check_flags g = None <->
  length (Args g) = 3 /\ ~ conflicting g /\ ~ missing g.
Proof.
  unfold check_flags.
  destruct (Nat.eqb_spec (length (Args g)) 3) as [Hn|Hn]; simpl;
    [|split; [done | by intros [? _]]].
  destruct (decide (loginsStr g = [])) as [El|El];
    [rewrite (nonempty_false _ El) | rewrite (nonempty_true _ El)];
  (destruct (decide (loginsFrom g = [])) as [EL|EL];
    [rewrite (nonempty_false _ EL) | rewrite (nonempty_true _ EL)]);
  (destruct (decide (passwordsStr g = [])) as [Ep|Ep];
    [rewrite (nonempty_false _ Ep) | rewrite (nonempty_true _ Ep)]);
  (destruct (decide (passwordsFrom g = [])) as [EP|EP];
    [rewrite (nonempty_false _ EP) | rewrite (nonempty_true _ EP)]);
  (destruct (decide (colonSeparatedFrom g = [])) as [EC|EC];
    [rewrite (nonempty_false _ EC) | rewrite (nonempty_true _ EC)]);
  simpl; unfold conflicting, missing;
  (split; [intros H; try discriminate H; tauto | intros (_ & H1 & H2); try done; exfalso; tauto]).
Qed.

(** X8. An empty condition is found in every body: in literal mode with
    the condition "" every attempt counts as failed and nothing is ever
    reported, and under -i every attempt is reported, whatever the
    server answers. *)
Theorem failed_empty_condition (g : Globals) (body : bytes) :
  rCondition g = None -> condition g = [] ->
  failed g body = negb (invertedCondition g).
Proof.
  intros Hr Hc. unfold failed. rewrite Hr, Hc.
  assert (Strings.Contains body [] = true) as -> by (by destruct body).
  by destruct (invertedCondition g).
Qed.

Lemma failed_empty_condition_witness :
  failed (with_data [] {| loginsStr := []; loginsFrom := []; passwordsStr := [];
                          passwordsFrom := []; colonSeparatedFrom := [];
                          firstOnly := false; invertedCondition := false;
                          conditionIsRegexp := false; numTasks := 1; verbose := false;
                          showAttempts := false; outputTo := []; headersAdd := [];
                          headersReplace := []; retryQueueLength := 0; Args := [];
                          postURL := []; host := []; data := [];
                          condition := []; rCondition := None; proxyURL := None |})
         (B "welcome")
  = negb false.
Proof.
  apply (failed_empty_condition
           (with_data [] {| loginsStr := []; loginsFrom := []; passwordsStr := [];
                            passwordsFrom := []; colonSeparatedFrom := [];
                            firstOnly := false; invertedCondition := false;
                            conditionIsRegexp := false; numTasks := 1; verbose := false;
                            showAttempts := false; outputTo := []; headersAdd := [];
                            headersReplace := []; retryQueueLength := 0; Args := [];
                            postURL := []; host := []; data := [];
                            condition := []; rCondition := None; proxyURL := None |})
           (B "welcome")); reflexivity.
Defined.

(* ===================================================================== *)
(** * Beyond the specification: the escaped login and password *)
(* ===================================================================== *)

Lemma escape_byte_safe (c : ascii) :
  forallb query_safe (Url.escape_byte c) = true.
Proof. destruct c as [[] [] [] [] [] [] [] []]; reflexivity. Qed.

Lemma QueryEscape_bytes (s : bytes) (c : ascii) :
  c ∈ Url.QueryEscape s -> exists d, d ∈ s /\ c ∈ Url.escape_byte d.
Proof.
  unfold Url.QueryEscape. rewrite list_elem_of_In, in_flat_map.
  intros (d & Hd & Hc). exists d. by rewrite !list_elem_of_In.
Qed.

Lemma caret_not_in_escape_byte (d : ascii) : "^"%char ∉ Url.escape_byte d.
Proof.
  intros Hc. pose proof (escape_byte_safe d) as Hd.
  rewrite forallb_forall in Hd. apply list_elem_of_In, Hd in Hc. discriminate Hc.
Qed.

(** X9. Whatever the login or the password, its escaped form consists
    of letters, digits and the bytes - _ . ~ + % only: no byte of it can
    end a form field or start one ("&", "="), and none is the "^" of a
    placeholder. *)
Theorem QueryEscape_safe (s : bytes) (c : ascii) :
  c ∈ Url.QueryEscape s -> query_safe c = true.
Proof.
  intros (d & _ & Hc)%QueryEscape_bytes. pose proof (escape_byte_safe d) as Hd.
  rewrite forallb_forall in Hd. by apply Hd, list_elem_of_In.
Qed.

Lemma QueryEscape_safe_witness : query_safe "5"%char = true.
Proof.
  apply (QueryEscape_safe (B "a^b") "5"%char). by_computation.
Defined.

Lemma QueryUnescape_escape_byte (c : ascii) (rest : bytes) :
  QueryUnescape (Url.escape_byte c ++ rest) = cons c <$> QueryUnescape rest.
Proof. destruct c as [[] [] [] [] [] [] [] []]; reflexivity. Qed.

(** X10. Escaping loses nothing: decoding the escaped form as a server
    does gives back the login or password byte for byte, whatever bytes
    it holds. *)
Theorem QueryUnescape_QueryEscape (s : bytes) :
  QueryUnescape (Url.QueryEscape s) = Some s.
Proof.
  induction s as [|c s IH]; [done|].
  unfold Url.QueryEscape in *. simpl flat_map.
  by rewrite QueryUnescape_escape_byte, IH.
Qed.

(* ===================================================================== *)
(** * Beyond the specification: what holds in every run *)
(* ===================================================================== *)

(** A property that the initial state has and every step keeps holds in
    every reachable state. *)
Lemma run_invariant (g : Globals) (P : State -> Prop) :
  (forall t e s s', P s -> step g t e s = Some s' -> P s') ->
  forall sched s s', P s -> run g sched s = Some s' -> P s'.
Proof.
  intros Hstep. induction sched as [|[t e] sched IH]; intros s s' Hs Hrun; simpl in Hrun.
  - by injection Hrun as <-.
  - destruct (step g t e s) as [s1|] eqn:E; [|done]. eauto.
Qed.

Lemma reachable_invariant (g : Globals) (pairs : list Job) (P : State -> Prop) :
  P (init g pairs) ->
  (forall t e s s', P s -> step g t e s = Some s' -> P s') ->
  forall s, reachable g pairs s -> P s.
Proof. intros Hinit Hstep s [sched Hrun]. by eapply run_invariant. Qed.

Lemma count_workers_insert (P : Worker -> bool) (ws : list Worker) (n : nat)
    (w w' : Worker) :
  ws !! n = Some w ->
  count_workers P (<[n := w']> ws) + b2n (P w) = count_workers P ws + b2n (P w').
Proof.
  unfold count_workers. revert n; induction ws as [|x ws IH]; intros [|n] Hw;
    simpl in *; try done.
  - injection Hw as ->. destruct (P w), (P w'); simpl; lia.
  - specialize (IH n Hw). destruct (P x); simpl; lia.
Qed.

Lemma count_workers_replicate (P : Worker -> bool) (k : nat) (w : Worker) :
  count_workers P (replicate k w) = k * b2n (P w).
Proof.
  unfold count_workers. induction k as [|k IH]; simpl; [done|].
  destruct (P w); simpl in *; lia.
Qed.

Lemma count_workers_le (P : Worker -> bool) (ws : list Worker) :
  count_workers P ws <= length ws.
Proof. apply List.filter_length_le. Qed.

Lemma count_workers_zero (P : Worker -> bool) (ws : list Worker) :
  count_workers P ws = 0 -> forall w, w ∈ ws -> P w = false.
Proof.
  unfold count_workers. induction ws as [|x ws IH]; simpl; intros H w Hw.
  - by apply elem_of_nil in Hw.
  - destruct (P x) eqn:E; [done|].
    apply elem_of_cons in Hw as [->|Hw]; [done | by apply IH].
Qed.

(** The cases of a step of a worker. *)
Ltac worker_cases H :=
  unfold worker_step in H;
  destruct (exited _) eqn:Hex in H; [discriminate H|];
  destruct (workers _ !! _) as [[wok wpc]|] eqn:Hw in H; [|discriminate H];
  destruct wpc; cbn [pc ok] in H;
  unfold select_step, attempt_step, retry_trySend, log_error in H;
  repeat case_match; simplify_eq.

Ltac main_cases H :=
  unfold main_step in H;
  destruct (exited _) eqn:Hex in H; [discriminate H|];
  destruct (main_pc _) as [[|job rest]| |] eqn:Hmain in H;
  repeat case_match; simplify_eq.

Ltac step_cases H :=
  lazymatch type of H with
  | step _ ?t _ _ = Some _ => destruct t; simpl in H; [main_cases H | worker_cases H]
  end.

(** X11. The channels never hold more than they were made for: at most
    [numTasks] pairs wait in [jobs] and at most [retryQueueLength] in
    [retry], in every state of every run. *)
Theorem channels_within_capacity (g : Globals) (pairs : list Job) (s : State) :
  reachable g pairs s ->
  length (jobs s) <= numTasks g /\ length (retry s) <= retryQueueLength g.
Proof.
  revert s. apply (reachable_invariant g pairs
    (fun s => length (jobs s) <= numTasks g /\ length (retry s) <= retryQueueLength g));
    [simpl; lia|].
  intros t e s s' [Hj Hr] H. step_cases H; simpl in *;
    repeat match goal with
           | E : (_ <? _) = true |- _ => apply Nat.ltb_lt in E
           | E : jobs _ = _ |- _ => rewrite E in *; clear E
           | E : retry _ = _ |- _ => rewrite E in *; clear E
           end;
    rewrite ?length_app; simpl in *; lia.
Qed.

Lemma channels_within_capacity_witness :
  (length (jobs queue_full) = 2 /\
   length (jobs queue_full) <= numTasks sample /\
   length (retry queue_full) <= retryQueueLength sample) /\
  (let g := with_retryQueueLength 1 sample in
   let s := state_after g refused_schedule (init g sample_pairs) in
   retry s = [ {| user := B "alice"; pass := B "x" |} ] /\
   length (jobs s) <= numTasks g /\
   length (retry s) <= retryQueueLength g).
Proof.
  split; (split; [vm_compute; reflexivity|]).
  - apply (channels_within_capacity sample sample_pairs queue_full).
    exists two_sends. vm_compute. reflexivity.
  - apply (channels_within_capacity (with_retryQueueLength 1 sample) sample_pairs).
    exists refused_schedule. vm_compute. reflexivity.
Defined.

Arguments count_workers : simpl never.

Lemma count_workers_lookup (P : Worker -> bool) (ws : list Worker) (n : nat)
    (w : Worker) :
  ws !! n = Some w -> b2n (P w) <= count_workers P ws.
Proof.
  unfold count_workers. revert n; induction ws as [|x ws IH]; intros [|n] Hw;
    simpl in *; try done.
  - injection Hw as ->. destruct (P w); simpl; lia.
  - specialize (IH n Hw). destruct (P x); simpl; lia.
Qed.

(** The counts of a kind of worker before and after worker [n] moved. *)
Ltac count_facts P :=
  match goal with
  | Hw : workers ?s !! ?n = Some ?w |- _ =>
      pose proof (count_workers_lookup P (workers s) n w Hw);
      try match goal with
          | |- context [<[n := ?w']> (workers s)] =>
              pose proof (count_workers_insert P (workers s) n w w' Hw)
          end
  end.

(** The bookkeeping of the process, kept by every step. *)
Lemma bookkeeping (g : Globals) (pairs : list Job) (s : State) :
  reachable g pairs s ->
  length (workers s) = numTasks g /\
  wg s = count_workers still_running (workers s) /\
  count_workers in_critical (workers s) = b2n (m_locked s) /\
  jobs_closed s = negb (is_sending (main_pc s)) /\
  (main_pc s = Finished -> exited s = Some 0%Z /\ wg s = 0) /\
  (forall st, exited s = Some st -> st = 0%Z) /\
  (firstOnly g = true -> length (out s) <= count_workers has_written (workers s)) /\
  (firstOnly g = false ->
   count_workers in_safeExit (workers s) = 0 /\
   (exited s <> None -> main_pc s = Finished) /\
   out_closed s = (is_finished (main_pc s) && nonempty (outputTo g))).
Proof.
  revert s. apply (reachable_invariant g pairs (fun s =>
    length (workers s) = numTasks g /\
    wg s = count_workers still_running (workers s) /\
    count_workers in_critical (workers s) = b2n (m_locked s) /\
    jobs_closed s = negb (is_sending (main_pc s)) /\
    (main_pc s = Finished -> exited s = Some 0%Z /\ wg s = 0) /\
    (forall st, exited s = Some st -> st = 0%Z) /\
    (firstOnly g = true -> length (out s) <= count_workers has_written (workers s)) /\
    (firstOnly g = false ->
     count_workers in_safeExit (workers s) = 0 /\
     (exited s <> None -> main_pc s = Finished) /\
     out_closed s = (is_finished (main_pc s) && nonempty (outputTo g))))).
  - simpl. rewrite length_replicate, !count_workers_replicate. simpl.
    repeat split; try done; lia.
  - intros t e s s' (Hlen & Hwg & Hcrit & Hclosed & Hfin & Hst & Hout & Hnof) H.
    destruct (firstOnly g) eqn:Hf;
      [clear Hnof; specialize (Hout eq_refl)
      | clear Hout; destruct (Hnof eq_refl) as (Hsafe & Hexit & Hoc); clear Hnof];
      step_cases H; simpl in *;
      try (count_facts still_running; count_facts in_critical;
           count_facts has_written; count_facts in_safeExit);
      simpl in *;
      repeat match goal with
             | E : m_locked _ = _ |- _ => rewrite E in *; clear E
             | E : main_pc _ = _ |- _ => rewrite E in *; clear E
             | E : out_closed _ = _ |- _ => rewrite E in *
             | E : (_ =? _) = true |- _ => apply Nat.eqb_eq in E
             end;
      simpl in *; rewrite ?length_insert, ?length_app; simpl.
    all: repeat split; try done; try lia; try (intros; simplify_eq; done).
    all: try (match goal with
              | Hm : main_pc _ = Finished |- _ => destruct (Hfin Hm); congruence
              | Hm : exited _ <> None |- _ => destruct (Hfin (Hexit Hm)); congruence
              end).
    all: destruct (m_locked s); simpl in *; lia.
Qed.

Lemma count_workers_one (P : Worker -> bool) (ws : list Worker) (i j : nat)
    (wi wj : Worker) :
  count_workers P ws <= 1 ->
  ws !! i = Some wi -> ws !! j = Some wj -> P wi = true -> P wj = true -> i = j.
Proof.
  revert i j; induction ws as [|x ws IH]; intros i j Hc Hi Hj Pi Pj; [done|].
  assert (Hcons : count_workers P (x :: ws) = b2n (P x) + count_workers P ws)
    by (unfold count_workers; simpl; by destruct (P x)).
  rewrite Hcons in Hc.
  destruct i as [|i], j as [|j]; simpl in *; simplify_eq; [done| | |].
  - pose proof (count_workers_lookup P ws j wj Hj) as H. rewrite Pi, Pj in *. simpl in *. lia.
  - pose proof (count_workers_lookup P ws i wi Hi) as H. rewrite Pi, Pj in *. simpl in *. lia.
  - f_equal. apply IH; [lia | done..].
Qed.

Lemma still_running_false (w : Worker) : still_running w = false -> pc w = Returned.
Proof. unfold still_running, has_returned. by destruct (pc w). Qed.

(** X12. [wg] counts the workers that have not returned: it starts at
    [numTasks], every worker takes one off when it leaves its loop, it
    is positive as long as some worker is still running, and it is zero
    (so that [wg.Wait()] in [main] goes on) only when every worker has
    returned. *)
Theorem wg_counts_running (g : Globals) (pairs : list Job) (s : State) :
  reachable g pairs s ->
  length (workers s) = numTasks g /\
  wg s = count_workers still_running (workers s) /\
  (forall n w, workers s !! n = Some w -> pc w <> Returned -> 0 < wg s) /\
  (wg s = 0 -> forall w, w ∈ workers s -> pc w = Returned).
Proof.
  intros Hr. destruct (bookkeeping g pairs s Hr) as (Hlen & Hwg & _).
  repeat split; [done | done | |].
  - intros n w Hw Hpc. rewrite Hwg.
    pose proof (count_workers_lookup still_running _ _ _ Hw) as H.
    assert (still_running w = true) as Hrun
      by (unfold still_running, has_returned; by destruct (pc w)).
    rewrite Hrun in H. simpl in H. lia.
  - intros H0 w Hin. apply still_running_false.
    eapply count_workers_zero; [|done]. by rewrite <- Hwg.
Qed.

Lemma wg_counts_running_witness :
  let gone := workers_gone 2 [ {| user := B "alice"; pass := B "x" |};
                               {| user := B "bob"; pass := B "x" |} ]
                             [ {| user := B "alice"; pass := B "y" |};
                               {| user := B "bob"; pass := B "y" |} ] in
  (wg one_returned = 1 /\
   wg one_returned = count_workers still_running (workers one_returned) /\
   0 < wg one_returned) /\
  (wg gone = 0 /\ forall w, w ∈ workers gone -> pc w = Returned).
Proof.
  assert (Hr : reachable sample sample_pairs one_returned)
    by (exists [(TWorker 0, welcoming)]; vm_compute; reflexivity).
  assert (Hg : reachable sample sample_pairs
                 (workers_gone 2 [ {| user := B "alice"; pass := B "x" |};
                                   {| user := B "bob"; pass := B "x" |} ]
                                 [ {| user := B "alice"; pass := B "y" |};
                                   {| user := B "bob"; pass := B "y" |} ]))
    by (exists early_schedule; vm_compute; reflexivity).
  split; (split; [vm_compute; reflexivity|]).
  - split.
    + apply (wg_counts_running sample sample_pairs one_returned Hr).
    + apply (proj1 (proj2 (proj2 (wg_counts_running sample sample_pairs one_returned Hr)))
               1 {| ok := true; pc := AtSelect |}); [vm_compute; reflexivity | discriminate].
  - apply (proj2 (proj2 (proj2 (wg_counts_running sample sample_pairs _ Hg)))).
    vm_compute. reflexivity.
Defined.

(** X13. The mutex does its work: in no state of a run are two workers
    between an [m.Lock()] and the [m.Unlock()] that follows it, whether
    in the write of a pair or in [safeExit]; and while one is there,
    [m] is locked. *)
Theorem mutual_exclusion (g : Globals) (pairs : list Job) (s : State)
    (i j : nat) (wi wj : Worker) :
  reachable g pairs s ->
  workers s !! i = Some wi -> workers s !! j = Some wj ->
  in_critical wi = true -> in_critical wj = true ->
  i = j /\ m_locked s = true.
Proof.
  intros Hr Hi Hj Ci Cj.
  destruct (bookkeeping g pairs s Hr) as (_ & _ & Hcrit & _).
  pose proof (count_workers_lookup in_critical _ _ _ Hi) as H. rewrite Ci in H.
  split.
  - eapply (count_workers_one in_critical); [|done..].
    rewrite Hcrit. destruct (m_locked s); simpl; lia.
  - rewrite Hcrit in H. destruct (m_locked s); [done | simpl in H; lia].
Qed.

Lemma mutual_exclusion_witness :
  0 = 0 /\ m_locked holding_the_mutex = true.
Proof.
  apply (mutual_exclusion (with_firstOnly sample) sample_pairs holding_the_mutex 0 0
           {| ok := true; pc := AtFprintf {| user := B "alice"; pass := B "x" |} |}
           {| ok := true; pc := AtFprintf {| user := B "alice"; pass := B "x" |} |});
    [exists (take 7 racing_schedule); vm_compute; reflexivity | reflexivity..].
Defined.

(** X14. What -f does bound: in first-match-only mode a worker that has
    written a line goes on to [safeExit] and never comes back to its
    loop, so that in every state of a run the sink holds at most as
    many lines as there are workers past their [Fprintf], and never more
    lines than there are workers. *)
Theorem first_match_at_most_numTasks_lines (g : Globals) (pairs : list Job) (s : State) :
  firstOnly g = true -> reachable g pairs s ->
  length (out s) <= count_workers has_written (workers s) /\
  length (out s) <= numTasks g.
Proof.
  intros Hf Hr.
  destruct (bookkeeping g pairs s Hr) as (Hlen & _ & _ & _ & _ & _ & Hout & _).
  specialize (Hout Hf).
  pose proof (count_workers_le has_written (workers s)). lia.
Qed.

(** At the end of the race both workers are past their write, and the
    sink holds two lines. *)
Lemma first_match_at_most_numTasks_lines_witness :
  let g := with_firstOnly sample in
  let s := state_after g racing_schedule (init g sample_pairs) in
  out s = [B "alice:x" ++ ["010"%char]; B "bob:x" ++ ["010"%char]] /\
  workers s = [ {| ok := true; pc := AtOsExit |}; {| ok := true; pc := AtExitLock |} ] /\
  length (out s) <= count_workers has_written (workers s) /\
  length (out s) <= numTasks g.
Proof.
  split; [vm_compute; reflexivity|]. split; [vm_compute; reflexivity|].
  apply (first_match_at_most_numTasks_lines (with_firstOnly sample) sample_pairs);
    [reflexivity | exists racing_schedule; vm_compute; reflexivity].
Defined.

(** X15. Without -f, and without a signal, the process ends in one way
    only once [main] has started to send: [main] returns, with status
    0, after it has sent every pair and closed [jobs] and after every
    worker has left its loop; the sink is closed then exactly when -o
    was given, and no worker ever closes it. *)
Theorem exit_only_through_main (g : Globals) (pairs : list Job) (s : State) (st : Z) :
  firstOnly g = false -> reachable g pairs s -> exited s = Some st ->
  st = 0%Z /\ main_pc s = Finished /\ jobs_closed s = true /\
  (forall w, w ∈ workers s -> pc w = Returned) /\
  out_closed s = nonempty (outputTo g).
Proof.
  intros Hf Hr Hex.
  destruct (bookkeeping g pairs s Hr) as (_ & Hwg & _ & Hcl & Hfin & Hst & _ & Hnof).
  destruct (Hnof Hf) as (_ & Hmain & Hoc).
  assert (Hm : main_pc s = Finished) by (apply Hmain; congruence).
  destruct (Hfin Hm) as [_ H0].
  repeat split.
  - by apply Hst.
  - done.
  - by rewrite Hcl, Hm.
  - intros w Hin. apply still_running_false.
    eapply count_workers_zero; [|done]. by rewrite <- Hwg.
  - by rewrite Hoc, Hm.
Qed.

Lemma run_snoc (g : Globals) (sched : list (Tid * Env)) (t : Tid) (e : Env)
    (s s1 s' : State) :
  run g sched s = Some s1 -> step g t e s1 = Some s' ->
  run g (sched ++ [(t, e)]) s = Some s'.
Proof.
  revert s; induction sched as [|[t0 e0] sched IH]; intros s Hrun Hstep; simpl in *.
  - injection Hrun as ->. by rewrite Hstep.
  - destruct (step g t0 e0 s); [|done]. by apply IH.
Qed.

Lemma reachable_step (g : Globals) (pairs : list Job) (t : Tid) (e : Env)
    (s s' : State) :
  reachable g pairs s -> step g t e s = Some s' -> reachable g pairs s'.
Proof. intros [sched Hrun] Hstep. exists (sched ++ [(t, e)]). by eapply run_snoc. Qed.

Lemma reachable_invariant_strong (g : Globals) (pairs : list Job) (P : State -> Prop) :
  P (init g pairs) ->
  (forall t e s s', reachable g pairs s -> P s -> step g t e s = Some s' -> P s') ->
  forall s, reachable g pairs s -> P s.
Proof.
  intros Hinit Hstep s Hr.
  enough (reachable g pairs s /\ P s) as [_ H] by exact H.
  revert s Hr. apply (reachable_invariant g pairs (fun s => reachable g pairs s /\ P s)).
  - split; [by exists [] | done].
  - intros t e s s' [Hr HP] H. split; [by eapply reachable_step | by eapply Hstep].
Qed.

Lemma elem_of_insert_inv (ws : list Worker) (n : nat) (w w' : Worker) :
  w ∈ <[n := w']> ws -> w = w' \/ w ∈ ws.
Proof.
  revert n; induction ws as [|x ws IH]; intros [|n] H; simpl in H.
  - by right.
  - by right.
  - apply elem_of_cons in H as [->|H]; [by left | right; set_solver].
  - apply elem_of_cons in H as [->|H]; [right; set_solver|].
    destruct (IH n H) as [->|?]; [by left | right; set_solver].
Qed.

(** X16. [main] closes [jobs] only when it has no pair left to send, and
    sends nothing afterwards (a send on a closed channel would panic);
    and a worker sets [ok] to false, turning to [retry] alone, only when
    [jobs] is closed and empty, after which [jobs] stays empty: the
    second [select] strands no fresh pair. *)
Theorem jobs_closed_and_drained (g : Globals) (pairs : list Job) (s : State) :
  reachable g pairs s ->
  (jobs_closed s = true -> pending (main_pc s) = []) /\
  (forall w, w ∈ workers s -> ok w = false -> jobs_closed s = true /\ jobs s = []).
Proof.
  intros Hr. split.
  - destruct (bookkeeping g pairs s Hr) as (_ & _ & _ & Hcl & _).
    rewrite Hcl. by destruct (main_pc s).
  - revert s Hr. apply (reachable_invariant_strong g pairs (fun s =>
      forall w, w ∈ workers s -> ok w = false -> jobs_closed s = true /\ jobs s = [])).
    + simpl. intros w Hw%elem_of_replicate Hok. by destruct Hw as [-> _].
    + intros t e s s' Hr Hinv H.
      destruct (bookkeeping g pairs s Hr) as (_ & _ & _ & Hcl & _).
      step_cases H; simpl in *; intros w Hin Hok;
        try (pose proof (Hinv _ (list_elem_of_lookup_2 _ _ _ Hw)) as Hn; simpl in Hn);
        try (apply elem_of_insert_inv in Hin as [->|Hin]; simpl in Hok);
        try pose proof (Hinv _ Hin Hok) as Hold;
        repeat match goal with
               | E : main_pc _ = _ |- _ => rewrite E in *; clear E
               | E : jobs _ = _ |- _ => rewrite E in *; clear E
               | E : _ && _ = true |- _ => apply andb_prop in E as [? ?]
               end;
        simpl in *; subst;
        try specialize (Hn eq_refl);
        repeat match goal with H : _ /\ _ |- _ => destruct H end;
        first [ done | congruence | split; congruence | split; [congruence | done] ].
Qed.

Lemma exit_only_through_main_witness :
  0%Z = 0%Z /\ main_pc finished_idle = Finished /\ jobs_closed finished_idle = true /\
  (forall w, w ∈ workers finished_idle -> pc w = Returned) /\
  out_closed finished_idle = nonempty (outputTo sample).
Proof.
  apply (exit_only_through_main sample [] finished_idle 0%Z);
    [reflexivity | exists idle_schedule; vm_compute; reflexivity | reflexivity].
Defined.

Lemma jobs_closed_and_drained_witness :
  let s := state_after sample draining_schedule (init sample sample_pairs) in
  workers s !! 0 = Some {| ok := false; pc := AtSelect |} /\
  pending (main_pc s) = [] /\
  jobs_closed s = true /\ jobs s = [].
Proof.
  split; [vm_compute; reflexivity|].
  assert (Hr : reachable sample sample_pairs
                 (state_after sample draining_schedule (init sample sample_pairs)))
    by (exists draining_schedule; vm_compute; reflexivity).
  split.
  - apply (proj1 (jobs_closed_and_drained sample sample_pairs _ Hr)).
    vm_compute. reflexivity.
  - apply (proj2 (jobs_closed_and_drained sample sample_pairs _ Hr)
             {| ok := false; pc := AtSelect |}); [|reflexivity].
    apply (list_elem_of_lookup_2 _ 0). vm_compute. reflexivity.
Defined.

(** X17. The sink only grows, and a closed sink is left alone: along
    every run, from any state, the lines written before are a prefix of
    the lines written after; once the sink is closed it stays closed and
    no line is added (the [Fprintf] of a late worker fails). *)
Theorem sink_append_only (g : Globals) (sched : list (Tid * Env)) (s s' : State) :
  run g sched s = Some s' ->
  out s `prefix_of` out s' /\
  (out_closed s = true -> out_closed s' = true /\ out s' = out s).
Proof.
  apply (run_invariant g (fun s' =>
    out s `prefix_of` out s' /\
    (out_closed s = true -> out_closed s' = true /\ out s' = out s))); [|done].
  clear s'. intros t e s1 s' [Hpre Hcl] H.
  step_cases H; simpl in *;
    (split; [first [ done | by apply prefix_app_r ] |]);
    intros Hc; destruct (Hcl Hc) as [Hc1 Heq];
    repeat match goal with
           | E : out_closed _ = _ |- _ => rewrite E in *; clear E
           end;
    first [ done | by split ].
Qed.

Lemma sink_append_only_witness :
  let g := with_firstOnly sample in
  let s1 := state_after g (take 9 racing_schedule) (init g sample_pairs) in
  let s2 := state_after g racing_schedule (init g sample_pairs) in
  let c1 := state_after g (take 12 abandoning_schedule) (init g sample_pairs) in
  let c2 := state_after g (replicate 3 (TWorker 1, welcoming)) c1 in
  (out s1 = [B "alice:x" ++ ["010"%char]] /\
   out s2 = [B "alice:x" ++ ["010"%char]; B "bob:x" ++ ["010"%char]] /\
   out s1 `prefix_of` out s2) /\
  (out_closed c1 = true /\
   workers c1 !! 1 = Some {| ok := true; pc := AtLock {| user := B "bob"; pass := B "x" |} |} /\
   workers c2 !! 1 = Some {| ok := true; pc := AtExitLock |} /\
   out_closed c2 = true /\ out c2 = out c1).
Proof.
  split.
  - split; [vm_compute; reflexivity|]. split; [vm_compute; reflexivity|].
    apply (sink_append_only (with_firstOnly sample) (drop 9 racing_schedule)).
    vm_compute. reflexivity.
  - split; [vm_compute; reflexivity|]. split; [vm_compute; reflexivity|].
    split; [vm_compute; reflexivity|].
    apply (proj2 (sink_append_only (with_firstOnly sample)
                    (replicate 3 (TWorker 1, welcoming))
                    (state_after (with_firstOnly sample) (take 12 abandoning_schedule)
                       (init (with_firstOnly sample) sample_pairs))
                    (state_after (with_firstOnly sample) (replicate 3 (TWorker 1, welcoming))
                       (state_after (with_firstOnly sample) (take 12 abandoning_schedule)
                          (init (with_firstOnly sample) sample_pairs)))
                    ltac:(vm_compute; reflexivity))).
    vm_compute. reflexivity.
Defined.

Lemma held_by_insert (ws : list Worker) (n : nat) (w : Worker) :
  ws !! n = Some w ->
  exists l1 l2,
    flat_map held_by ws = l1 ++ held_by w ++ l2 /\
    forall w', flat_map held_by (<[n := w']> ws) = l1 ++ held_by w' ++ l2.
Proof.
  revert n; induction ws as [|x ws IH]; intros [|n] Hw; simpl in *; try done.
  - injection Hw as ->. by exists [], (flat_map held_by ws).
  - destruct (IH n Hw) as (l1 & l2 & H1 & H2).
    exists (held_by x ++ l1), l2. split.
    + by rewrite H1, <- app_assoc.
    + intros w'. by rewrite H2, <- app_assoc.
Qed.

Lemma held_by_replicate (k : nat) (w : Worker) :
  held_by w = [] -> flat_map held_by (replicate k w) = [].
Proof. intros H. induction k as [|k IH]; simpl; [done|]. by rewrite H, IH. Qed.

(** X18. No pair is invented and none is doubled: in every state of
    every run, the pairs still on their way (not yet sent, waiting in
    [jobs] or [retry], or held by a worker) together with the lines
    written to the sink make up, as a multiset, a part of what the pair
    source gave.  So every line of the sink is the line of a pair of the
    source, and a pair is written no more often than it was given. *)
Theorem pairs_conserved (g : Globals) (pairs : list Job) (s : State) :
  reachable g pairs s ->
  (result_line <$> in_flight s) ++ out s ⊆+ result_line <$> pairs.
Proof.
  revert s. apply (reachable_invariant g pairs (fun s =>
    (result_line <$> in_flight s) ++ out s ⊆+ result_line <$> pairs)).
  - unfold in_flight. simpl. rewrite held_by_replicate by done.
    by rewrite !app_nil_r.
  - intros t e s s' Hinv H. unfold in_flight in *.
    step_cases H; simpl in *;
      try (destruct (held_by_insert _ _ _ Hw) as (l1 & l2 & Hall & Hins);
           rewrite Hall in Hinv; rewrite ?Hall, ?Hins; clear Hall Hins);
      repeat match goal with
             | E : main_pc _ = _ |- _ => rewrite E in *; clear E
             | E : jobs _ = _ |- _ => rewrite E in *; clear E
             | E : retry _ = _ |- _ => rewrite E in *; clear E
             end;
      simpl in *; (etrans; [|exact Hinv]);
      repeat (rewrite fmap_app || rewrite fmap_cons); simpl; solve_submseteq.
Qed.

Lemma pairs_conserved_witness :
  (result_line <$> in_flight holding_the_mutex) ++ out holding_the_mutex
  ⊆+ result_line <$> sample_pairs.
Proof.
  apply (pairs_conserved (with_firstOnly sample) sample_pairs).
  exists (take 7 racing_schedule). vm_compute. reflexivity.
Defined.

(* ===================================================================== *)
(** * Beyond the specification: an attack that goes well *)
(* ===================================================================== *)

Lemma run_app (g : Globals) (sched1 sched2 : list (Tid * Env)) (s s1 s' : State) :
  run g sched1 s = Some s1 -> run g sched2 s1 = Some s' ->
  run g (sched1 ++ sched2) s = Some s'.
Proof.
  revert s; induction sched1 as [|[t e] sched1 IH]; intros s H1 H2; simpl in *.
  - by injection H1 as ->.
  - destruct (step g t e s); [|done]. by apply IH.
Qed.

Lemma insert_last_of_run (a r : Worker) (i : nat) (l : list Worker) :
  <[i := r]> (a :: replicate i a ++ l) = replicate i a ++ r :: l.
Proof. induction i as [|i IH]; simpl; [done|]. by rewrite IH. Qed.

(** The other workers find [jobs] empty and leave, one after the other. *)
Lemma others_leave (g : Globals) (e : Env) (pairs : list Job) (i j : nat) :
  exists sched,
    run g sched (others_leaving i j pairs) = Some (others_leaving 0 (i + j) pairs).
Proof.
  revert j; induction i as [|i IH]; intros j.
  - by exists [].
  - destruct (IH (S j)) as [sched Hrun].
    exists ((TWorker (S i), e) :: sched). simpl run.
    assert (Hstep : worker_step g e (S i) (others_leaving (S i) j pairs)
                    = Some (others_leaving i (S j) pairs)).
    { unfold worker_step, others_leaving. cbn [exited workers].
      rewrite lookup_app_l by (rewrite length_replicate; lia).
      rewrite lookup_replicate_2 by lia. cbn [pc ok].
      unfold select_step, goto, set_worker, set_workers, set_wg. cbn.
      by rewrite insert_last_of_run. }
    rewrite Hstep. replace (i + S j) with (S i + j) in Hrun by lia. exact Hrun.
Qed.

(** The steps of a run from a state that is written out. *)
Ltac run_steps :=
  cbv [run step main_step worker_step select_step goto set_worker set_workers
       set_jobs set_jobs_closed set_main_pc set_retry set_wg set_m_locked set_out
       set_out_closed set_stderr set_exited eprint log_error retry_trySend
       nonempty_list exited workers jobs jobs_closed retry wg m_locked out
       out_closed stderr main_pc ok pc lookup list_lookup insert list_insert
       orb andb negb length app Nat.ltb Nat.leb Nat.eqb Nat.sub].

(** One pair: [main] sends it, worker 0 takes it, tries it, and writes
    it under the mutex when the server accepts it. *)
Lemma one_attempt (g : Globals) (e : Env) (k : nat) (written : list bytes)
    (err : list Diag) (job : Job) (rest : list Job) (header body : bytes) :
  numTasks g = S k -> firstOnly g = false ->
  server e (new_request g job) = Http.Body header body ->
  exists sched err',
    run g sched (between_attempts k written err (job :: rest))
    = Some (between_attempts k
              (written ++ if accepted g e job then [result_line job] else [])
              err' rest).
Proof.
  intros Hn Hf Hreply. unfold accepted. rewrite Hreply.
  destruct (failed g body) eqn:Hfail, (showAttempts g) eqn:Hs, (verbose g) eqn:Hv;
    cbn [negb]; rewrite ?app_nil_r;
    [ exists [(TMain, e); (TWorker 0, e); (TWorker 0, e)]
    | exists [(TMain, e); (TWorker 0, e); (TWorker 0, e)]
    | exists [(TMain, e); (TWorker 0, e); (TWorker 0, e)]
    | exists [(TMain, e); (TWorker 0, e); (TWorker 0, e)]
    | exists [(TMain, e); (TWorker 0, e); (TWorker 0, e);
              (TWorker 0, e); (TWorker 0, e); (TWorker 0, e)]
    | exists [(TMain, e); (TWorker 0, e); (TWorker 0, e);
              (TWorker 0, e); (TWorker 0, e); (TWorker 0, e)]
    | exists [(TMain, e); (TWorker 0, e); (TWorker 0, e);
              (TWorker 0, e); (TWorker 0, e); (TWorker 0, e)]
    | exists [(TMain, e); (TWorker 0, e); (TWorker 0, e);
              (TWorker 0, e); (TWorker 0, e); (TWorker 0, e)] ];
    eexists; unfold between_attempts;
    run_steps; rewrite Hn; run_steps;
    cbv [attempt_step]; rewrite Hreply, Hfail, Hs, Hv; run_steps;
    rewrite ?Hf; run_steps; reflexivity.
Qed.

Lemma all_attempts (g : Globals) (e : Env) (k : nat) (pairs : list Job) :
  numTasks g = S k -> firstOnly g = false ->
  (forall job, job ∈ pairs ->
     exists header body, server e (new_request g job) = Http.Body header body) ->
  forall written err,
  exists sched err',
    run g sched (between_attempts k written err pairs)
    = Some (between_attempts k
              (written ++ (result_line <$> filter (fun job => accepted g e job = true) pairs))
              err' []).
Proof.
  intros Hn Hf. induction pairs as [|job pairs IH]; intros Hreply written err.
  - exists [], err. simpl. by rewrite app_nil_r.
  - destruct (Hreply job) as (header & body & Hjob); [set_solver|].
    destruct (one_attempt g e k written err job pairs header body Hn Hf Hjob)
      as (sched1 & err1 & Hrun1).
    destruct (IH (fun j Hj => Hreply j (list_elem_of_further _ _ _ Hj))
                 (written ++ if accepted g e job then [result_line job] else []) err1)
      as (sched2 & err2 & Hrun2).
    exists (sched1 ++ sched2), err2.
    rewrite (run_app g sched1 sched2 _ _ _ Hrun1 Hrun2). f_equal. f_equal.
    rewrite filter_cons. destruct (accepted g e job); simpl.
    + by rewrite <- app_assoc.
    + by rewrite app_nil_r.
Qed.

(** X19. An attack that goes well.  With at least one worker and without
    -f, against a server that answers every attempt, there is a run
    (the other workers leave at once, worker 0 takes each pair as soon
    as [main] has sent it) at the end of which the process has exited
    with status 0 and the sink holds, in the order of the source, the
    line of each pair that the server accepted and no other line. *)
Theorem attack_reports_accepted_pairs (g : Globals) (e : Env) (pairs : list Job) :
  0 < numTasks g -> firstOnly g = false ->
  (forall job, job ∈ pairs ->
     exists header body, server e (new_request g job) = Http.Body header body) ->
  exists sched s',
    run g sched (init g pairs) = Some s' /\
    exited s' = Some 0%Z /\
    out s' = result_line <$> filter (fun job => accepted g e job = true) pairs.
Proof.
  intros Hn Hf Hreply.
  destruct (numTasks g) as [|k] eqn:Hk; [lia|].
  assert (Hinit : init g pairs = others_leaving k 0 pairs).
  { unfold init, others_leaving. rewrite Hk. cbn [replicate]. by rewrite app_nil_r. }
  destruct (others_leave g e pairs k 0) as [sched0 Hrun0].
  replace (k + 0) with k in Hrun0 by lia.
  destruct (all_attempts g e k pairs Hk Hf Hreply [] []) as (sched1 & err & Hrun1).
  simpl app in Hrun1.
  exists (sched0 ++ sched1 ++ [(TMain, e); (TWorker 0, e); (TWorker 0, e); (TMain, e)]).
  eexists. split; [|split].
  - rewrite Hinit. eapply run_app; [exact Hrun0|].
    eapply run_app; [exact Hrun1|].
    unfold between_attempts. run_steps. reflexivity.
  - destruct (nonempty (outputTo g)); reflexivity.
  - destruct (nonempty (outputTo g)); reflexivity.
Qed.

Lemma attack_reports_accepted_pairs_witness :
  exists sched s',
    run sample sched (init sample sample_pairs) = Some s' /\
    exited s' = Some 0%Z /\
    out s' = result_line <$> filter (fun job => accepted sample only_alice_y job = true)
                                    sample_pairs.
Proof.
  apply (attack_reports_accepted_pairs sample only_alice_y sample_pairs).
  - vm_compute. lia.
  - reflexivity.
  - intros job Hjob. simpl server.
    destruct (Strings.Contains _ _); eauto.
Defined.

Example only_alice_y_reported :
  result_line <$> filter (fun job => accepted sample only_alice_y job = true) sample_pairs
  = [B "alice:y" ++ ["010"%char]].
Proof. vm_compute. reflexivity. Qed.

(* ===================================================================== *)
(** * Beyond the specification: more on the request *)
(* ===================================================================== *)

(** X20. The [select] at the top of the loop moves a pair and never
    drops one: after a worker has gone through it, the pairs on their
    way are the same as before, and the sink and standard error are
    untouched; when the worker takes a pair, it is the oldest of [jobs]
    or the oldest of [retry]. *)
Theorem select_moves_pairs (g : Globals) (e : Env) (n : nat) (w : Worker)
    (s s' : State) :
  workers s !! n = Some w -> pc w = AtSelect ->
  worker_step g e n s = Some s' ->
  in_flight s' ≡ₚ in_flight s /\ out s' = out s /\ stderr s' = stderr s /\
  (forall w' job, workers s' !! n = Some w' -> pc w' = AtAttempt job ->
     head (jobs s) = Some job \/ head (retry s) = Some job).
Proof.
  intros Hw Hpc H. unfold in_flight.
  unfold worker_step in H. rewrite Hw in H.
  destruct (exited s); [done|]. destruct w as [wok wpc]. simpl in Hpc. subst wpc.
  cbn [pc ok] in H. unfold select_step in H.
  repeat case_match; simplify_eq; simpl in *;
    destruct (held_by_insert _ _ _ Hw) as (l1 & l2 & Hall & Hins);
    rewrite Hall, Hins; clear Hall Hins;
    repeat match goal with
           | E : jobs _ = _ |- _ => rewrite E in *; clear E
           | E : retry _ = _ |- _ => rewrite E in *; clear E
           end;
    simpl;
    (split; [solve_Permutation|]); (split; [done|]); (split; [done|]);
    intros w' job' Hw'; apply lookup_lt_Some in Hw as Hlt;
    rewrite list_lookup_insert_eq in Hw' by done; simplify_eq; simpl;
    intros; simplify_eq; auto.
Qed.

Lemma select_moves_pairs_witness :
  let s' := state_after sample [(TWorker 0, welcoming)] queue_full in
  workers s' !! 0 = Some {| ok := true; pc := AtAttempt {| user := B "alice"; pass := B "x" |} |} /\
  jobs s' = [ {| user := B "bob"; pass := B "x" |} ] /\
  in_flight s' ≡ₚ in_flight queue_full /\
  out s' = out queue_full /\ stderr s' = stderr queue_full /\
  (head (jobs queue_full) = Some {| user := B "alice"; pass := B "x" |} \/
   head (retry queue_full) = Some {| user := B "alice"; pass := B "x" |}).
Proof.
  split; [vm_compute; reflexivity|]. split; [vm_compute; reflexivity|].
  destruct (select_moves_pairs sample welcoming 0 {| ok := true; pc := AtSelect |}
              queue_full (state_after sample [(TWorker 0, welcoming)] queue_full)
              ltac:(vm_compute; reflexivity) ltac:(reflexivity)
              ltac:(vm_compute; reflexivity)) as (Hperm & Hout & Herr & Hhead).
  split; [exact Hperm|]. split; [exact Hout|]. split; [exact Herr|].
  apply (Hhead {| ok := true; pc := AtAttempt {| user := B "alice"; pass := B "x" |} |});
    vm_compute; reflexivity.
Defined.

(** X21. The flags decide alone whether a standard header changes: a
    standard header whose key no -h and no -H flag names (in any
    spelling of upper and lower case) goes out with its standard value
    and nothing else; so Content-Length is the length of the body that
    is sent unless a flag names it. *)
Theorem standard_header_kept (g : Globals) (body : bytes) (h : Header) :
  h ∈ standard_headers g body ->
  values_for (key h) (headersAdd g) = [] ->
  values_for (key h) (headersReplace g) = [] ->
  request_header g body !! key h = Some [value h].
Proof.
  intros Hin Hadd Hrep. unfold request_header.
  rewrite Set_fold, Hrep. simpl last.
  rewrite !Add_fold, Hadd, lookup_empty.
  unfold standard_headers in Hin.
  repeat (apply elem_of_cons in Hin as [->|Hin]); [..|by apply elem_of_nil in Hin];
    reflexivity.
Qed.

Lemma standard_header_kept_witness :
  request_header sample (B "user=alice&pass=x")
    !! key {| key := B "Content-Length"; value := Itoa 17 |}
  = Some [value {| key := B "Content-Length"; value := Itoa 17 |}].
Proof.
  apply (standard_header_kept sample (B "user=alice&pass=x")
           {| key := B "Content-Length"; value := Itoa 17 |});
    [| reflexivity | reflexivity].
  unfold standard_headers. do 2 apply list_elem_of_further. apply list_elem_of_here.
Defined.

Module TemplateFacts.

Lemma caret_not_escaped (s : bytes) : "^"%char ∉ Url.QueryEscape s.
Proof.
  intros (d & _ & Hc)%QueryEscape_bytes. by eapply caret_not_in_escape_byte.
Qed.

(** In front of the first caret no placeholder starts. *)
Lemma first_after_caret_free (pre post pre' post' sub : bytes) :
  "^"%char ∉ pre ->
  pre ++ ("^"%char :: sub) ++ post = pre' ++ ("^"%char :: sub) ++ post' ->
  length pre <= length pre'.
Proof.
  intros Hpre Heq. apply app_eq_inv in Heq as [(m & -> & Hm) | (m & -> & Hm)].
  - destruct m as [|x m]; [rewrite app_nil_r; lia|].
    simpl in Hm. injection Hm as <- _. exfalso. apply Hpre.
    apply elem_of_app. right. apply list_elem_of_here.
  - rewrite length_app. lia.
Qed.

Lemma caret_free_no_instance (s sub : bytes) :
  "^"%char ∉ s -> forall pre post, s <> pre ++ ("^"%char :: sub) ++ post.
Proof. intros Hs pre post ->. apply Hs. set_solver. Qed.

(** Between caret-free texts, ^PASS^ hides no ^USER^. *)
Lemma no_USER_around_PASS (b c : bytes) :
  "^"%char ∉ b -> "^"%char ∉ c ->
  forall pre post, b ++ PASS ++ c <> pre ++ USER ++ post.
Proof.
  intros Hb Hc pre post Heq.
  apply app_eq_inv in Heq as [(m & -> & Hm) | (m & -> & Hm)].
  - destruct m as [|x m]; vm_compute in Hm; simplify_eq.
    apply Hb. set_solver.
  - destruct m as [|x1 [|x2 [|x3 [|x4 [|x5 [|x6 m]]]]]];
      vm_compute in Hm; simplify_eq; apply Hc; set_solver.
Qed.

End TemplateFacts.

(** X22. On a template of the usual shape, a text, ^USER^, a text,
    ^PASS^ and a text, where the three texts have no caret, the body is
    the template with the escaped login in the place of ^USER^ and the
    escaped password in the place of ^PASS^, whatever the login and the
    password are. *)
Theorem postData_usual_template (g : Globals) (job : Job) (a b c : bytes) :
  "^"%char ∉ a -> "^"%char ∉ b -> "^"%char ∉ c ->
  data g = a ++ USER ++ b ++ PASS ++ c ->
  postData g job
  = a ++ Url.QueryEscape (user job) ++ b ++ Url.QueryEscape (pass job) ++ c.
Proof.
  intros Ha Hb Hc Hdata. unfold postData. rewrite Hdata.
  assert (HU : USER <> []) by discriminate.
  assert (HP : PASS <> []) by discriminate.
  assert (Strings.Replace (a ++ USER ++ b ++ PASS ++ c) USER (Url.QueryEscape (user job))
          = a ++ Url.QueryEscape (user job) ++ b ++ PASS ++ c) as ->.
  { eapply ReplaceFacts.ReplacedAll_unique; [by apply ReplaceFacts.Replace_spec|].
    apply ReplacedAll_next.
    - intros pre' post'. by apply TemplateFacts.first_after_caret_free.
    - apply ReplacedAll_none. by apply TemplateFacts.no_USER_around_PASS. }
  replace (a ++ Url.QueryEscape (user job) ++ b ++ PASS ++ c)
    with ((a ++ Url.QueryEscape (user job) ++ b) ++ PASS ++ c)
    by (by rewrite <- !app_assoc).
  replace (a ++ Url.QueryEscape (user job) ++ b ++ Url.QueryEscape (pass job) ++ c)
    with ((a ++ Url.QueryEscape (user job) ++ b) ++ Url.QueryEscape (pass job) ++ c)
    by (by rewrite <- !app_assoc).
  eapply ReplaceFacts.ReplacedAll_unique; [by apply ReplaceFacts.Replace_spec|].
  apply ReplacedAll_next.
  - intros pre' post'. apply TemplateFacts.first_after_caret_free.
    intros [?|[?|?]%elem_of_app]%elem_of_app;
      [by apply Ha | by eapply TemplateFacts.caret_not_escaped | by apply Hb].
  - apply ReplacedAll_none. by apply TemplateFacts.caret_free_no_instance.
Qed.

Lemma postData_usual_template_witness :
  postData sample {| user := B "a b"; pass := B "^PASS^" |}
  = B "user=" ++ Url.QueryEscape (user {| user := B "a b"; pass := B "^PASS^" |})
    ++ B "&pass=" ++ Url.QueryEscape (pass {| user := B "a b"; pass := B "^PASS^" |}) ++ [].
Proof.
  apply (postData_usual_template sample {| user := B "a b"; pass := B "^PASS^" |}
           (B "user=") (B "&pass=") []); [by_computation.. | reflexivity].
Defined.

(* ===================================================================== *)
(** * Beyond the specification: an attack that tries nothing *)
(* ===================================================================== *)

Lemma main_fills_jobs (g : Globals) (e : Env) (k m : nat) (sent rest : list Job) :
  length sent + m <= numTasks g -> m <= length rest ->
  exists sched,
    run g sched (workers_gone k sent rest)
    = Some (workers_gone k (sent ++ take m rest) (drop m rest)).
Proof.
  revert sent rest; induction m as [|m IH]; intros sent rest Hroom Hm.
  - exists []. simpl. by rewrite app_nil_r, drop_0.
  - destruct rest as [|job rest]; [simpl in Hm; lia|].
    destruct (IH (sent ++ [job]) rest) as [sched Hrun].
    { rewrite length_app. simpl. lia. }
    { simpl in Hm. lia. }
    exists ((TMain, e) :: sched). simpl run. unfold main_step.
    cbn [exited main_pc workers_gone jobs].
    assert ((length sent <? numTasks g) = true) as -> by (apply Nat.ltb_lt; lia).
    rewrite <- app_assoc in Hrun. exact Hrun.
Qed.

Lemma workers_gone_stuck (g : Globals) (e : Env) (k n : nat) (sent rest : list Job) :
  worker_step g e n (workers_gone k sent rest) = None.
Proof.
  unfold worker_step. cbn [exited workers workers_gone].
  destruct (replicate k _ !! n) as [w|] eqn:E; [|done].
  apply lookup_replicate in E as [-> _]. done.
Qed.

(** X24. Nothing makes a worker wait for the first pair.  With any
    number of workers and any pairs there is a run, the one in which
    every worker reaches its [select] before [main] sends, where every
    worker returns at once and no pair is ever tried: nothing is written
    to the sink or to standard error.  If the pairs fit into the buffer
    of [jobs], [main] sends them all, closes [jobs] and the process
    exits with status 0; if they do not, [main] fills the buffer and
    waits for room for ever, no goroutine being able to move. *)
Theorem attack_can_try_nothing (g : Globals) (e : Env) (pairs : list Job) :
  0 < numTasks g ->
  exists sched s',
    run g sched (init g pairs) = Some s' /\
    out s' = [] /\ stderr s' = [] /\
    jobs s' = take (numTasks g) pairs /\
    (forall w, w ∈ workers s' -> pc w = Returned) /\
    (forall t e', step g t e' s' = None) /\
    exited s' = (if length pairs <=? numTasks g then Some 0%Z else None).
Proof.
  intros Hn. destruct (numTasks g) as [|k] eqn:Hk; [lia|].
  assert (Hinit : init g pairs = others_leaving k 0 pairs).
  { unfold init, others_leaving. rewrite Hk. cbn [replicate]. by rewrite app_nil_r. }
  destruct (others_leave g e pairs k 0) as [sched0 Hrun0].
  replace (k + 0) with k in Hrun0 by lia.
  assert (Hlast : run g [(TWorker 0, e)] (others_leaving 0 k pairs)
                  = Some (workers_gone (S k) [] pairs)) by reflexivity.
  destruct (Nat.leb_spec (length pairs) (S k)) as [Hfit|Hmore].
  - destruct (main_fills_jobs g e (S k) (length pairs) [] pairs)
      as [sched1 Hrun1]; [rewrite Hk; cbn [length]; lia | lia |].
    rewrite app_nil_l, firstn_all, drop_all in Hrun1.
    exists (sched0 ++ [(TWorker 0, e)] ++ sched1 ++ [(TMain, e); (TMain, e)]).
    eexists. split.
    { rewrite Hinit. eapply run_app; [exact Hrun0|].
      eapply run_app; [exact Hlast|].
      eapply run_app; [exact Hrun1|].
      unfold workers_gone. cbv [run step main_step exited main_pc wg Nat.eqb].
      reflexivity. }
    destruct (nonempty (outputTo g));
      cbn [out stderr jobs workers exited set_main_pc set_exited set_out_closed
           set_jobs_closed];
      (repeat split; [by rewrite take_ge by lia | by intros w [-> _]%elem_of_replicate
                     | intros [|n] e'; reflexivity]).
  - destruct (main_fills_jobs g e (S k) (S k) [] pairs)
      as [sched1 Hrun1]; [rewrite Hk; cbn [length]; lia | lia |].
    rewrite app_nil_l in Hrun1.
    exists (sched0 ++ [(TWorker 0, e)] ++ sched1). eexists. split.
    { rewrite Hinit. eapply run_app; [exact Hrun0|].
      eapply run_app; [exact Hlast|]. exact Hrun1. }
    cbn [out stderr jobs workers exited workers_gone].
    repeat split; [by intros w [-> _]%elem_of_replicate|].
    intros [|n] e'; [|apply workers_gone_stuck].
    unfold step, main_step. cbn [exited main_pc workers_gone jobs].
    destruct (drop (S k) pairs) as [|job rest] eqn:Hd.
    { apply (f_equal length) in Hd. rewrite length_drop in Hd. simpl in Hd. lia. }
    rewrite length_take, Hk.
    assert ((S k `min` length pairs <? S k) = false) as -> by (apply Nat.ltb_ge; lia).
    done.
Qed.

Lemma attack_can_try_nothing_witness :
  exists sched s',
    run sample sched (init sample sample_pairs) = Some s' /\
    out s' = [] /\ stderr s' = [] /\
    jobs s' = take (numTasks sample) sample_pairs /\
    (forall w, w ∈ workers s' -> pc w = Returned) /\
    (forall t e', step sample t e' s' = None) /\
    exited s' = (if length sample_pairs <=? numTasks sample then Some 0%Z else None).
Proof.
  apply (attack_can_try_nothing sample welcoming sample_pairs). vm_compute. lia.
Defined.


(** X23. [safeExit], lines 130-139, run by a worker that is not held up:
    it takes the mutex, closes the sink while it holds it, releases it
    and ends the process with status 0.  The lines of the sink are as
    they were; a sink that was closed already is reported on standard
    error ("file already closed") and changes nothing else. *)
Theorem safeExit_closes_and_exits (g : Globals) (e : Env) (n : nat) (w : Worker)
    (s : State) :
  exited s = None -> workers s !! n = Some w -> pc w = AtExitLock ->
  m_locked s = false ->
  exists s',
    run g (replicate 4 (TWorker n, e)) s = Some s' /\
    exited s' = Some 0%Z /\ out_closed s' = true /\ m_locked s' = false /\
    out s' = out s /\
    stderr s' = stderr s ++ (if out_closed s then [Log ErrClosed] else []) /\
    jobs s' = jobs s /\ retry s' = retry s /\ main_pc s' = main_pc s.
Proof.
  intros Hex Hw Hpc Hm.
  set (s1 := goto n (ok w) AtExitClose (set_m_locked true s)).
  set (s2 := goto n (ok w) (AtExitUnlock (if out_closed s then Some ErrClosed else None))
               (set_out_closed true s1)).
  set (s3 := goto n (ok w) AtOsExit
               (log_error (if out_closed s then Some ErrClosed else None)
                  (set_m_locked false s2))).
  assert (H1 : workers s1 !! n = Some {| ok := ok w; pc := AtExitClose |})
    by (by eapply goto_lookup).
  assert (H2 : workers s2 !! n
               = Some {| ok := ok w;
                         pc := AtExitUnlock (if out_closed s then Some ErrClosed else None) |})
    by (by eapply goto_lookup).
  assert (H3 : workers s3 !! n = Some {| ok := ok w; pc := AtOsExit |})
    by (eapply goto_lookup; rewrite log_error_workers; exact H2).
  assert (Hex3 : exited s3 = None)
    by (subst s3; simpl; by rewrite log_error_exited).
  exists (set_exited (Some 0%Z) s3). split.
  - simpl run. rewrite (worker_step_at g e n w s Hex Hw), Hpc, Hm. fold s1.
    rewrite (worker_step_at g e n _ s1 Hex H1). cbn [ok pc].
    change (out_closed s1) with (out_closed s). fold s2.
    rewrite (worker_step_at g e n _ s2 Hex H2). cbn [ok pc]. fold s3.
    by rewrite (worker_step_at g e n _ s3 Hex3 H3).
  - subst s3 s2 s1. destruct (out_closed s); simpl; rewrite ?app_nil_r; done.
Qed.

Lemma safeExit_closes_and_exits_witness :
  exists s',
    run (with_firstOnly sample) (replicate 4 (TWorker 0, welcoming))
      (set_m_locked false
         (set_worker 0 {| ok := true; pc := AtExitLock |} holding_the_mutex))
    = Some s' /\
    exited s' = Some 0%Z /\ out_closed s' = true /\ m_locked s' = false /\
    out s' = [] /\ stderr s' = [] ++ [] /\
    jobs s' = [] /\ retry s' = [] /\ main_pc s' = Sending (drop 2 sample_pairs).
Proof.
  apply (safeExit_closes_and_exits (with_firstOnly sample) welcoming 0
           {| ok := true; pc := AtExitLock |}); reflexivity.
Defined.

(* ===================================================================== *)
(** * Beyond the specification: no end to the retries *)
(* ===================================================================== *)

Lemma retry_cycle (g : Globals) (e : Env) (n : nat) (b : bool) (job : Job)
    (s : State) (err : bytes) :
  exited s = None ->
  workers s !! n = Some {| ok := b; pc := AtAttempt job |} ->
  retry s = [] -> 0 < retryQueueLength g -> select_retry e = true ->
  server e (new_request g job) = Http.DoError err ->
  exists s',
    run g (replicate 2 (TWorker n, e)) s = Some s' /\
    exited s' = None /\
    workers s' !! n = Some {| ok := b; pc := AtAttempt job |} /\
    retry s' = [] /\ out s' = out s /\ jobs s' = jobs s /\
    length (stderr s') = length (stderr s) + (if showAttempts g then 2 else 1).
Proof.
  intros Hex Hw Hretry Hcap Hsel Hreply.
  set (s1 := attempt_step g e n {| ok := b; pc := AtAttempt job |} job s).
  assert (Hs1 : s1 = goto n b AtSelect
                  (set_retry [job]
                     (eprint [Log err]
                        (if showAttempts g
                         then eprint [ShowAttempt (host g) (user job) (pass job) n] s
                         else s)))).
  { subst s1. unfold attempt_step, retry_trySend. rewrite Hreply. cbn [ok].
    destruct (showAttempts g); simpl; rewrite Hretry; simpl;
      (assert ((0 <? retryQueueLength g) = true) as -> by (by apply Nat.ltb_lt)); done. }
  assert (Hex1 : exited s1 = None)
    by (rewrite Hs1; destruct (showAttempts g); exact Hex).
  assert (Hw1 : workers s1 !! n = Some {| ok := b; pc := AtSelect |}).
  { rewrite Hs1. eapply goto_lookup. destruct (showAttempts g); exact Hw. }
  assert (Hr1 : retry s1 = [job]) by (by rewrite Hs1).
  exists (goto n b (AtAttempt job) (set_retry [] s1)). split.
  - simpl run. rewrite (worker_step_at g e n _ s Hex Hw). cbn [pc]. fold s1.
    rewrite (worker_step_at g e n _ s1 Hex1 Hw1). cbn [pc ok].
    unfold select_step. rewrite Hr1, Hsel. cbn [ok nonempty_list negb orb].
    rewrite andb_false_r. by destruct b.
  - split; [exact Hex1|]. split; [by eapply goto_lookup|]. split; [done|].
    rewrite Hs1. destruct (showAttempts g); simpl; rewrite !length_app; simpl;
      repeat split; lia.
Qed.

(** X25. There is no end to the retries.  A pair whose attempt fails with
    a connection error goes to [retry] and comes back; against a server
    that cannot be reached, a worker that takes it back at once tries
    the same pair again and again, as often as one likes: each round logs
    the error, nothing is written to the sink and the process does not
    exit.  The program has no limit on the attempts of a pair. *)
Theorem retries_without_end (g : Globals) (e : Env) (n : nat) (b : bool)
    (job : Job) (s : State) (err : bytes) (rounds : nat) :
  exited s = None ->
  workers s !! n = Some {| ok := b; pc := AtAttempt job |} ->
  retry s = [] -> 0 < retryQueueLength g -> select_retry e = true ->
  server e (new_request g job) = Http.DoError err ->
  exists s',
    run g (replicate (2 * rounds) (TWorker n, e)) s = Some s' /\
    exited s' = None /\
    workers s' !! n = Some {| ok := b; pc := AtAttempt job |} /\
    out s' = out s /\ jobs s' = jobs s /\
    length (stderr s) + rounds <= length (stderr s').
Proof.
  intros Hex Hw Hretry Hcap Hsel Hreply. revert s Hex Hw Hretry.
  induction rounds as [|rounds IH]; intros s Hex Hw Hretry.
  - exists s. simpl. repeat split; [done.. | lia].
  - destruct (retry_cycle g e n b job s err Hex Hw Hretry Hcap Hsel Hreply)
      as (s1 & Hrun1 & Hex1 & Hw1 & Hr1 & Hout1 & Hjobs1 & Herr1).
    destruct (IH s1 Hex1 Hw1 Hr1) as (s' & Hrun & Hex' & Hw' & Hout' & Hjobs' & Herr').
    exists s'. split.
    + replace (2 * S rounds) with (2 + 2 * rounds) by lia.
      rewrite replicate_add. by eapply run_app.
    + repeat split; [done | done | congruence | congruence |].
      destruct (showAttempts g); lia.
Qed.

Lemma retries_without_end_witness :
  exists s',
    run sample (replicate (2 * 3) (TWorker 0, {| select_retry := true; server := server unreachable |}))
      (set_worker 0 {| ok := true; pc := AtAttempt {| user := B "alice"; pass := B "y" |} |}
         (init sample [])) = Some s' /\
    exited s' = None /\
    workers s' !! 0
    = Some {| ok := true; pc := AtAttempt {| user := B "alice"; pass := B "y" |} |} /\
    out s' = [] /\ jobs s' = [] /\
    length (stderr (set_worker 0
                      {| ok := true; pc := AtAttempt {| user := B "alice"; pass := B "y" |} |}
                      (init sample []))) + 3 <= length (stderr s').
Proof.
  apply (retries_without_end sample
           {| select_retry := true; server := server unreachable |} 0 true
           {| user := B "alice"; pass := B "y" |}
           (set_worker 0 {| ok := true;
                            pc := AtAttempt {| user := B "alice"; pass := B "y" |} |}
              (init sample []))
           (B "connection refused") 3);
    [reflexivity | reflexivity | reflexivity | vm_compute; lia | reflexivity | reflexivity].
Defined.

(* ===================================================================== *)
(** * Whole runs: what is pushed and what is written *)
(* ===================================================================== *)

(** A step of another goroutine leaves worker [n] where it is. *)
Lemma other_step_keeps (g : Globals) (t : Tid) (e : Env) (n : nat) (s s' : State) :
  step g t e s = Some s' -> is_worker n t = false ->
  workers s' !! n = workers s !! n.
Proof.
  intros H Hn. destruct t as [|m]; simpl in *.
  - main_cases H; done.
  - apply Nat.eqb_neq in Hn.
    worker_cases H; simpl; by rewrite ?list_lookup_insert_ne by done.
Qed.

(** No step removes a line from the sink or opens it again. *)
Lemma run_keeps_sink (g : Globals) (sched : list (Tid * Env)) (s s' : State) :
  run g sched s = Some s' ->
  (forall line, line ∈ out s -> line ∈ out s') /\
  (out_closed s = true -> out_closed s' = true).
Proof.
  apply (run_invariant g (fun s' =>
    (forall line, line ∈ out s -> line ∈ out s') /\
    (out_closed s = true -> out_closed s' = true))); [|done].
  clear s'. intros t e s1 s' [Hin Hcl] H.
  step_cases H; simpl in *; (split; [|try done]);
    try done; try (intros line Hl; apply elem_of_app; left; by apply Hin).
  all: intros Hc; specialize (Hcl Hc); congruence.
Qed.

(** Where an attempt leaves the worker. *)
Lemma attempt_step_workers (g : Globals) (e : Env) (n : nat) (w : Worker)
    (job : Job) (s : State) :
  workers (attempt_step g e n w job s)
  = <[n := {| ok := ok w;
              pc := match server e (new_request g job) with
                    | Http.Body _ body => if failed g body then AtSelect else AtLock job
                    | _ => AtSelect
                    end |}]> (workers s).
Proof.
  unfold attempt_step, retry_trySend.
  destruct (showAttempts g), (server e (new_request g job)), (verbose g); simpl;
    repeat match goal with |- context [if ?b then _ else _] => destruct b; simpl end;
    done.
Qed.

Lemma steps_of_cons (n : nat) (t : Tid) (e : Env) (sched : list (Tid * Env)) :
  steps_of n ((t, e) :: sched) = b2n (is_worker n t) + steps_of n sched.
Proof. unfold steps_of. simpl. by destruct (is_worker n t). Qed.

(** A worker that has taken a pair which the server accepts has the
    line of the pair in the sink after three steps of its own, whatever
    the other goroutines do in between, unless the sink is closed
    before. *)
Lemma write_follows (g : Globals) (n : nat) (job : Job) (sched : list (Tid * Env)) :
  forall (s s' : State) (w : Worker) (k : nat),
  workers s !! n = Some w ->
  (pc w = AtAttempt job /\ k = 3) \/ (pc w = AtLock job /\ k = 2) \/
  (pc w = AtFprintf job /\ k = 1) ->
  run g sched s = Some s' ->
  Forall (fun te => is_worker n te.1 = true ->
            exists header body,
              server te.2 (new_request g job) = Http.Body header body /\
              failed g body = false) sched ->
  k <= steps_of n sched ->
  out_closed s' = false ->
  user job ++ B ":" ++ pass job ++ ["010"%char] ∈ out s'.
Proof.
  induction sched as [|[t e] sched IH]; intros s s' w k Hw Hpc Hrun Hall Hk Hopen.
  - unfold steps_of in Hk. simpl in Hk. destruct Hpc as [[_ ->]|[[_ ->]|[_ ->]]]; lia.
  - simpl in Hrun. destruct (step g t e s) as [s1|] eqn:Hstep; [|done].
    apply Forall_cons in Hall as [He Hall]. simpl in He.
    rewrite steps_of_cons in Hk.
    destruct (is_worker n t) eqn:Ht.
    + destruct t as [|m]; [done|]. simpl in Ht. apply Nat.eqb_eq in Ht. subst m.
      destruct (He eq_refl) as (header & body & Hreply & Hfail).
      simpl in Hstep, Hk. unfold worker_step in Hstep.
      destruct (exited s) eqn:Hex; [done|]. rewrite Hw in Hstep.
      pose proof (lookup_lt_Some _ _ _ Hw) as Hlt.
      destruct Hpc as [[Hpc ->]|[[Hpc ->]|[Hpc ->]]]; rewrite Hpc in Hstep.
      * injection Hstep as <-.
        eapply (IH _ s' {| ok := ok w; pc := AtLock job |} 2);
          [|right; left; split; reflexivity|done..|lia|done].
        rewrite attempt_step_workers, Hreply, Hfail.
        by apply list_lookup_insert_eq.
      * destruct (m_locked s); [done|]. injection Hstep as <-.
        eapply (IH _ s' {| ok := ok w; pc := AtFprintf job |} 1);
          [|right; right; split; reflexivity|done..|lia|done].
        simpl. by apply list_lookup_insert_eq.
      * destruct (run_keeps_sink g sched s1 s' Hrun) as [Hin Hcl].
        destruct (out_closed s) eqn:Hoc; injection Hstep as <-.
        -- simpl in Hcl. rewrite Hoc in Hcl. specialize (Hcl eq_refl). congruence.
        -- apply Hin. simpl. apply elem_of_app. right. apply list_elem_of_here.
    + simpl in Hk.
      eapply (IH s1 s' w k); [|done..].
      by rewrite (other_step_keeps g t e n s s1 Hstep Ht).
Qed.

Lemma run_snoc_inv (g : Globals) (sched : list (Tid * Env)) (t : Tid) (e : Env)
    (s s' : State) :
  run g (sched ++ [(t, e)]) s = Some s' ->
  exists s1, run g sched s = Some s1 /\ step g t e s1 = Some s'.
Proof.
  revert s; induction sched as [|[t0 e0] sched IH]; intros s Hrun; simpl in *.
  - exists s. split; [done|]. by destruct (step g t e s).
  - destruct (step g t0 e0 s); [|done]. by apply IH.
Qed.

Lemma cleared_snoc (g : Globals) (pairs : list Job) (sched : list (Tid * Env))
    (x : Tid * Env) (job : Job) :
  cleared g pairs sched job -> cleared g pairs (sched ++ [x]) job.
Proof.
  intros (sched1 & sched2 & n & e & s1 & w & header & body & -> & H).
  exists sched1, (sched2 ++ [x]), n, e, s1, w, header, body.
  split; [by rewrite <- app_assoc | done].
Qed.

(** What one step does to the sink and to the workers that are about to
    write: a line comes from a worker at its [Fprintf], and a worker
    comes to the write from an attempt that the server answered with a
    body for which [failed] is false. *)
Lemma step_to_the_write (g : Globals) (t : Tid) (e : Env) (s1 s : State) :
  step g t e s1 = Some s ->
  (forall line : bytes, line ∈ out s ->
     line ∈ out s1 \/
     exists n w job, workers s1 !! n = Some w /\ pc w = AtFprintf job /\
                     line = user job ++ B ":" ++ pass job ++ ["010"%char]) /\
  (forall n w job, workers s !! n = Some w ->
     pc w = AtLock job \/ pc w = AtFprintf job ->
     (exists w1, workers s1 !! n = Some w1 /\
                 (pc w1 = AtLock job \/ pc w1 = AtFprintf job)) \/
     (t = TWorker n /\
      exists w1 header body,
        workers s1 !! n = Some w1 /\ pc w1 = AtAttempt job /\
        server e (new_request g job) = Http.Body header body /\
        failed g body = false)).
Proof.
  intros H. step_cases H; simpl; (split; [|]).
  all: try (intros line Hl; by left).
  all: try (intros n' w' job' Hw' Hpc'; left; by eauto).
  all: try (intros n' w' job' Hw' Hpc';
            apply list_lookup_insert_Some in Hw' as [(-> & <- & _)|[Hne Hw']];
            [simpl in Hpc'; destruct Hpc' as [Hpc'|Hpc']; simplify_eq;
             first [ left; eexists; split; [exact Hw|]; simpl; by auto
                   | right; split; [done|]; eexists _, _, _; split; [exact Hw|]; by eauto ]
            | left; by eauto]).
  intros line [Hl|Hl%list_elem_of_singleton]%elem_of_app; [by left|].
  right. exists n, {| ok := wok; pc := AtFprintf job |}, job. by rewrite Hl.
Qed.

(** Every line of the sink is the line of a pair that a worker tried
    and for whose response [failed] was false. *)
Lemma written_was_cleared (g : Globals) (pairs : list Job) (sched : list (Tid * Env)) :
  forall s, run g sched (init g pairs) = Some s ->
  (forall line : bytes, line ∈ out s ->
     exists job, line = user job ++ B ":" ++ pass job ++ ["010"%char] /\
                 cleared g pairs sched job) /\
  (forall n w job, workers s !! n = Some w ->
     pc w = AtLock job \/ pc w = AtFprintf job -> cleared g pairs sched job).
Proof.
  induction sched as [|[t e] sched IH] using rev_ind; intros s Hrun.
  - injection Hrun as <-. split.
    + intros line Hl. by apply elem_of_nil in Hl.
    + intros n w job Hw Hpc. simpl in Hw. apply lookup_replicate in Hw as [-> _].
      simpl in Hpc. by destruct Hpc.
  - apply run_snoc_inv in Hrun as (s1 & Hrun1 & Hstep).
    destruct (IH s1 Hrun1) as [Hout Hws].
    destruct (step_to_the_write g t e s1 s Hstep) as [Hline Hwriter].
    split.
    + intros line Hl. destruct (Hline line Hl) as [Hold|(n & w & job & Hw & Hpc & ->)].
      * destruct (Hout line Hold) as (job & -> & Hc).
        exists job. split; [done | by apply cleared_snoc].
      * exists job. split; [done|]. apply cleared_snoc. eapply Hws; eauto.
    + intros n w job Hw Hpc.
      destruct (Hwriter n w job Hw Hpc)
        as [(w1 & Hw1 & Hpc1)|(-> & w1 & header & body & Hw1 & Hpc1 & Hreply & Hfail)].
      * apply cleared_snoc. eapply Hws; eauto.
      * by exists sched, [], n, e, s1, w1, header, body.
Qed.

Lemma main_steps_snoc (sched : list (Tid * Env)) (t : Tid) (e : Env) :
  main_steps (sched ++ [(t, e)]) = main_steps sched + b2n (is_main t).
Proof.
  unfold main_steps. rewrite List.filter_app, length_app. simpl.
  by destruct (is_main t).
Qed.

Lemma take_drop_next {A} (l : list A) (k : nat) (x : A) (rest : list A) :
  drop k l = x :: rest -> take (S k) l = take k l ++ [x] /\ drop (S k) l = rest.
Proof.
  intros H. assert (Hx : l !! k = Some x).
  { rewrite <- (Nat.add_0_r k), <- lookup_drop, H. done. }
  split; [by apply take_S_r|].
  rewrite (drop_S l x k Hx) in H. by injection H.
Qed.

Lemma take_drop_end {A} (l : list A) (k : nat) :
  drop k l = [] -> take (S k) l = take k l /\ drop (S k) l = [].
Proof.
  intros H. assert (Hk : length l <= k).
  { apply (f_equal length) in H. rewrite length_drop in H. simpl in H. lia. }
  rewrite !take_ge, drop_ge by lia. done.
Qed.

(** The pushes follow the pair source: after [k] steps of [main] the
    pairs that were pushed to [jobs], those that the workers have taken
    from it followed by those that still wait in it, are the first [k]
    pairs of the source, and [main] has the others still to push. *)
Lemma pushes_follow_the_source (g : Globals) (pairs : list Job)
    (sched : list (Tid * Env)) :
  forall s, run g sched (init g pairs) = Some s ->
  exists taken,
    taken ++ jobs s = take (main_steps sched) pairs /\
    pending (main_pc s) = drop (main_steps sched) pairs.
Proof.
  induction sched as [|[t e] sched IH] using rev_ind; intros s Hrun.
  - injection Hrun as <-. by exists [].
  - apply run_snoc_inv in Hrun as (s1 & Hrun1 & H).
    destruct (IH s1 Hrun1) as (taken & Htake & Hdrop).
    rewrite main_steps_snoc.
    step_cases H; simpl in *; rewrite ?Nat.add_0_r;
      repeat match goal with
             | E : main_pc _ = _ |- _ => rewrite E in *; clear E
             | E : jobs _ = _ |- _ => rewrite E in *; clear E
             end;
      simpl in *; rewrite ?Nat.add_1_r;
      try (by exists taken).
    + symmetry in Hdrop. destruct (take_drop_end _ _ Hdrop) as [-> ->]. by exists taken.
    + symmetry in Hdrop. destruct (take_drop_next _ _ _ _ Hdrop) as [-> ->].
      exists taken. by rewrite app_assoc, Htake.
    + symmetry in Hdrop. destruct (take_drop_end _ _ Hdrop) as [-> ->]. by exists taken.
    + symmetry in Hdrop. destruct (take_drop_end _ _ Hdrop) as [-> ->]. by exists taken.
    + match goal with
      | H : taken ++ ?j :: _ = _ |- _ =>
          exists (taken ++ [j]); by rewrite <- app_assoc
      end.
Qed.

Lemma main_steps_cons (t : Tid) (e : Env) (sched : list (Tid * Env)) :
  main_steps ((t, e) :: sched) = b2n (is_main t) + main_steps sched.
Proof. unfold main_steps. simpl. by destruct (is_main t). Qed.

(** The pushes of a run are the first pairs that [main] had to push, as
    many as [main] takes steps. *)
Lemma pushed_follows (g : Globals) (sched : list (Tid * Env)) :
  forall s s', run g sched s = Some s' ->
  pushed g sched s = take (main_steps sched) (pending (main_pc s)).
Proof.
  induction sched as [|[t e] sched IH]; intros s s' Hrun; [done|].
  simpl in Hrun. simpl pushed. rewrite main_steps_cons.
  destruct (step g t e s) as [s1|] eqn:H; [|done].
  rewrite (IH s1 s' Hrun). clear IH Hrun.
  step_cases H; simpl;
    repeat match goal with
           | E : main_pc _ = _ |- _ => rewrite E in *; clear E
           | E : jobs _ = _ |- _ => rewrite E in *; clear E
           end;
    simpl; rewrite ?drop_all, ?take_nil, ?drop_app_length; try done.
  all: rewrite drop_ge by lia; done.
Qed.

(** The pushes of a run from the start of [main]: they are the first
    pairs of the source, as many as [main] has taken steps; [main] has
    the other pairs still to push; what waits in [jobs] is the end of
    what was pushed; and when [jobs] is closed every pair of the source
    has been pushed. *)
Lemma pushes_of_a_run (g : Globals) (pairs : list Job) (sched : list (Tid * Env))
    (s : State) :
  run g sched (init g pairs) = Some s ->
  pushed g sched (init g pairs) = take (main_steps sched) pairs /\
  pending (main_pc s) = drop (main_steps sched) pairs /\
  (exists taken, taken ++ jobs s = pushed g sched (init g pairs)) /\
  (jobs_closed s = true -> pushed g sched (init g pairs) = pairs).
Proof.
  intros Hrun.
  pose proof (pushed_follows g sched _ _ Hrun) as Hpushed. simpl in Hpushed.
  destruct (pushes_follow_the_source g pairs sched s Hrun) as (taken & Htake & Hdrop).
  rewrite Hpushed. split; [done|]. split; [done|]. split; [by exists taken|].
  intros Hcl.
  destruct (bookkeeping g pairs s (ex_intro _ sched Hrun)) as (_ & _ & _ & Hc & _).
  rewrite Hcl in Hc.
  assert (Hnone : pending (main_pc s) = []) by (by destruct (main_pc s)).
  rewrite Hdrop in Hnone. apply (f_equal length) in Hnone.
  rewrite length_drop in Hnone. simpl in Hnone. apply take_ge. lia.
Qed.

(** C3 does not hold as stated: in first-match-only mode the process
    exits as soon as a worker has reported a pair.  Here the matrix has
    2 * 2 pairs; when the process has exited, two of them have been
    pushed to [jobs] and [main] still has the two others to push. *)
Lemma matrix_pairs_left_unpushed :
  let g := with_firstOnly sample in
  let pairs := matrix_jobs [B "alice"; B "bob"] [B "x"; B "y"] in
  length pairs = 4 /\
  pushed g abandoning_schedule (init g pairs)
  = [ {| user := B "alice"; pass := B "x" |}; {| user := B "bob"; pass := B "x" |} ] /\
  exists s,
    run g abandoning_schedule (init g pairs) = Some s /\
    exited s = Some 0%Z /\
    main_pc s = Sending [ {| user := B "alice"; pass := B "y" |};
                          {| user := B "bob"; pass := B "y" |} ] /\
    jobs s = [] /\
    forall t e, step g t e s = None.
Proof.
  split; [reflexivity|]. split; [vm_compute; reflexivity|].
  eexists. split; [vm_compute; reflexivity|]. repeat split.
  intros [|n] e; reflexivity.
Qed.

(** C3, amended. In matrix mode the pair source is the sequence of the
    |L| * |P| pairs in which the pair of the [i]-th password and the
    [j]-th login stands at position [i * |L| + j] (the password changes
    in the outer loop, the login in the inner one).  [main] pushes
    these pairs to [jobs] one by one and in this order, a push waiting
    as long as the buffer is full: in every run, when [main] has taken
    [k] steps, the pairs that were pushed to [jobs] are, in the order of
    the pushes, the first [k] pairs of the sequence, [main] has the
    others still to push, and what waits in [jobs] is the end of what
    was pushed; and when [jobs] has been closed, all |L| * |P| pairs
    have been pushed. *)
Theorem matrix_pairs_pushed_in_order (g : Globals) (logins passwords : list bytes) :
  let pairs := matrix_jobs logins passwords in
  (length pairs = length logins * length passwords /\
   forall (i j : nat) (u p : bytes),
     passwords !! i = Some p -> logins !! j = Some u ->
     pairs !! (i * length logins + j) = Some {| user := u; pass := p |}) /\
  (forall (s : State) (job : Job) (rest : list Job),
     exited s = None -> main_pc s = Sending (job :: rest) ->
     main_step g s
     = if length (jobs s) <? numTasks g
       then Some (set_main_pc (Sending rest) (set_jobs (jobs s ++ [job]) s))
       else None) /\
  (forall (sched : list (Tid * Env)) (s : State),
     run g sched (init g pairs) = Some s ->
     pushed g sched (init g pairs) = take (main_steps sched) pairs /\
     pending (main_pc s) = drop (main_steps sched) pairs /\
     (exists taken, taken ++ jobs s = pushed g sched (init g pairs)) /\
     (jobs_closed s = true -> pushed g sched (init g pairs) = pairs)).
Proof.
  intros pairs. split; [apply matrix_jobs_index|]. split.
  - intros s job rest Hex Hpc. unfold main_step. by rewrite Hex, Hpc.
  - intros sched s. apply pushes_of_a_run.
Qed.

(** After three steps of [main] and one of each worker in the sample
    attack: three pairs have been pushed, of which two have been taken;
    and at the end of a run in which nobody is let in, all four. *)
Lemma matrix_pairs_pushed_in_order_witness :
  let sched := [ (TMain, welcoming); (TMain, welcoming);
                 (TWorker 0, welcoming); (TWorker 1, welcoming);
                 (TMain, welcoming) ] in
  let pairs := matrix_jobs [B "alice"; B "bob"] [B "x"; B "y"] in
  let s := state_after sample sched (init sample pairs) in
  (jobs s = [ {| user := B "alice"; pass := B "y" |} ] /\
   pushed sample sched (init sample pairs)
   = [ {| user := B "alice"; pass := B "x" |}; {| user := B "bob"; pass := B "x" |};
       {| user := B "alice"; pass := B "y" |} ]) /\
  pushed sample draining_schedule (init sample pairs) = pairs.
Proof.
  split.
  - split; [vm_compute; reflexivity|].
    etransitivity;
      [ exact (proj1 (proj2 (proj2
                 (matrix_pairs_pushed_in_order sample [B "alice"; B "bob"] [B "x"; B "y"]))
                 [ (TMain, welcoming); (TMain, welcoming);
                   (TWorker 0, welcoming); (TWorker 1, welcoming);
                   (TMain, welcoming) ]
                 (state_after sample
                    [ (TMain, welcoming); (TMain, welcoming);
                      (TWorker 0, welcoming); (TWorker 1, welcoming);
                      (TMain, welcoming) ]
                    (init sample (matrix_jobs [B "alice"; B "bob"] [B "x"; B "y"])))
                 ltac:(vm_compute; reflexivity)))
      | vm_compute; reflexivity ].
  - apply (proj2 (proj2 (proj2 (proj2 (proj2
             (matrix_pairs_pushed_in_order sample [B "alice"; B "bob"] [B "x"; B "y"]))
             draining_schedule
             (state_after sample draining_schedule
                (init sample (matrix_jobs [B "alice"; B "bob"] [B "x"; B "y"])))
             ltac:(vm_compute; reflexivity))))).
    vm_compute. reflexivity.
Defined.

(** C1 does not hold as stated: a pair for which [failed] is false is
    not always written.  In first-match-only mode both workers of the
    sample attack take a pair and the server accepts both; worker 0
    writes alice:x and runs [safeExit] to the end before worker 1 has
    taken the mutex.  The process has exited, the sink holds the line of
    alice:x alone, and bob:x, for whose response [failed] was false, is
    never written. *)
Lemma accepted_pair_never_written :
  let g := with_firstOnly sample in
  let bob_x := {| user := B "bob"; pass := B "x" |} in
  server welcoming (new_request g bob_x)
  = Http.Body (B "HTTP/1.1 200 OK") (B "welcome") /\
  failed g (B "welcome") = false /\
  cleared g sample_pairs abandoning_schedule bob_x /\
  exists s,
    run g abandoning_schedule (init g sample_pairs) = Some s /\
    workers s !! 1 = Some {| ok := true; pc := AtLock bob_x |} /\
    out s = [B "alice:x" ++ ["010"%char]] /\
    exited s = Some 0%Z /\
    forall t e, step g t e s = None.
Proof.
  split; [reflexivity|]. split; [reflexivity|]. split.
  - exists (take 5 abandoning_schedule), (drop 6 abandoning_schedule), 1, welcoming.
    eexists _, {| ok := true; pc := AtAttempt {| user := B "bob"; pass := B "x" |} |},
            (B "HTTP/1.1 200 OK"), (B "welcome").
    split; [reflexivity|]. split; [vm_compute; reflexivity|]. by repeat split.
  - eexists. split; [vm_compute; reflexivity|]. repeat split.
    intros [|n] e; reflexivity.
Qed.

(** C1, amended. For the body of every response, [matched] is whether
    the regular expression matches (pattern mode) or whether the body
    contains the condition (literal mode), and [failed] is [matched],
    negated under -i.  When [failed] is true the worker goes back for
    the next pair and writes nothing.  In every run, every line of the
    sink is the line login:pass of a pair that a worker tried and for
    whose response [failed] was false.  And a worker that tries a pair
    for whose response [failed] is false has written the line
    login:pass of the pair to the sink once it has taken three steps
    (the attempt, the lock, the write), whatever the other goroutines do
    in between, provided that the sink has not been closed until then;
    the worker takes these steps unless the process exits first. *)
Theorem pair_written_when_not_failed (g : Globals) :
  (forall body : bytes,
     exists matched : bool,
       match rCondition g with
       | Some re => matched = Match re body
       | None => matched = true <-> exists pre post, body = pre ++ condition g ++ post
       end /\
       failed g body = if invertedCondition g then negb matched else matched) /\
  (forall (e : Env) (n : nat) (w : Worker) (job : Job) (s : State)
          (header body : bytes),
     exited s = None -> workers s !! n = Some w -> pc w = AtAttempt job ->
     server e (new_request g job) = Http.Body header body ->
     failed g body = true ->
     exists s', worker_step g e n s = Some s' /\ out s' = out s /\
                workers s' !! n = Some {| ok := ok w; pc := AtSelect |}) /\
  (forall (pairs : list Job) (sched : list (Tid * Env)) (s : State) (line : bytes),
     run g sched (init g pairs) = Some s -> line ∈ out s ->
     exists job, line = user job ++ B ":" ++ pass job ++ ["010"%char] /\
                 cleared g pairs sched job) /\
  (forall (n : nat) (job : Job) (sched : list (Tid * Env)) (s s' : State)
          (w : Worker),
     workers s !! n = Some w -> pc w = AtAttempt job ->
     run g sched s = Some s' ->
     Forall (fun te => is_worker n te.1 = true ->
               exists header body,
                 server te.2 (new_request g job) = Http.Body header body /\
                 failed g body = false) sched ->
     3 <= steps_of n sched ->
     out_closed s' = false ->
     user job ++ B ":" ++ pass job ++ ["010"%char] ∈ out s').
Proof.
  split; [|split; [|split]].
  - intros body.
    exists (match rCondition g with
            | Some re => Match re body
            | None => Strings.Contains body (condition g)
            end).
    split; [destruct (rCondition g); [done | apply Contains_spec] | done].
  - intros e n w job s header body Hex Hw Hpc Hreply Hfail.
    exists (attempt_step g e n w job s). split; [|split].
    + by rewrite (worker_step_at g e n w s Hex Hw), Hpc.
    + by destruct (attempt_step_frame g e n w job s) as (_ & _ & _ & _ & Hout & _).
    + rewrite attempt_step_workers, Hreply, Hfail.
      apply list_lookup_insert_eq. by eapply lookup_lt_Some.
  - intros pairs sched s line Hrun Hl.
    by apply (proj1 (written_was_cleared g pairs sched s Hrun)).
  - intros n job sched s s' w Hw Hpc Hrun Hall Hk Hopen.
    eapply (write_follows g n job sched s s' w 3); eauto.
Qed.

(** The sample attack: worker 1 tries, locks, writes and unlocks while
    worker 0, whose pair the server accepts too, tries its pair and
    waits for the mutex; worker 0 writes after it. *)
Lemma pair_written_when_not_failed_witness :
  let s' := state_after sample overtaking_schedule both_attempting in
  out s' = [B "bob:x" ++ ["010"%char]; B "alice:x" ++ ["010"%char]] /\
  B "alice:x" ++ ["010"%char] ∈ out s'.
Proof.
  split; [vm_compute; reflexivity|].
  apply (proj2 (proj2 (proj2 (pair_written_when_not_failed sample)))
           0 {| user := B "alice"; pass := B "x" |} overtaking_schedule both_attempting
           (state_after sample overtaking_schedule both_attempting)
           {| ok := true; pc := AtAttempt {| user := B "alice"; pass := B "x" |} |}).
  - reflexivity.
  - reflexivity.
  - vm_compute. reflexivity.
  - repeat constructor; intros _; by exists (B "HTTP/1.1 200 OK"), (B "welcome").
  - vm_compute. lia.
  - reflexivity.
Defined.

(** X3. The combined file loses nothing but the lines without a colon,
    and [main] pushes in the order of the file: in every run, when
    [main] has taken [k] steps, the pairs that were pushed to [jobs],
    written as login:pass in the order of the pushes, are the first [k]
    of the lines that have a colon, and the pairs that [main] has still
    to push are the colon lines after them; when [jobs] has been
    closed, every line with a colon has been pushed. *)
Theorem combined_jobs_text (g : Globals) (lines : list bytes)
    (sched : list (Tid * Env)) (s : State) :
  run g sched (init g (combined_jobs lines)) = Some s ->
  pair_text <$> pushed g sched (init g (combined_jobs lines))
  = take (main_steps sched) (filter (fun text => ":"%char ∈ text) lines) /\
  pair_text <$> pending (main_pc s)
  = drop (main_steps sched) (filter (fun text => ":"%char ∈ text) lines) /\
  (jobs_closed s = true ->
   pair_text <$> pushed g sched (init g (combined_jobs lines))
   = filter (fun text => ":"%char ∈ text) lines).
Proof.
  intros Hrun.
  destruct (pushes_of_a_run g _ sched s Hrun) as (Htake & Hdrop & _ & Hall).
  rewrite Hdrop, fmap_drop, combined_jobs_texts. split; [|split; [done|]].
  - by rewrite Htake, fmap_take, combined_jobs_texts.
  - intros Hcl. by rewrite (Hall Hcl), combined_jobs_texts.
Qed.

(** A file of four lines, one of them without a colon: [main] has pushed
    two pairs and worker 0 has taken the first. *)
Lemma combined_jobs_text_witness :
  let lines := [B "root:toor"; B "no colon here"; B "admin:a:b"; B "guest:"] in
  let sched := [(TMain, welcoming); (TMain, welcoming); (TWorker 0, welcoming)] in
  let s := state_after sample sched (init sample (combined_jobs lines)) in
  jobs s = [ {| user := B "admin"; pass := B "a:b" |} ] /\
  pair_text <$> pushed sample sched (init sample (combined_jobs lines))
  = [B "root:toor"; B "admin:a:b"] /\
  pair_text <$> pending (main_pc s) = [B "guest:"].
Proof.
  split; [vm_compute; reflexivity|].
  destruct (combined_jobs_text sample
              [B "root:toor"; B "no colon here"; B "admin:a:b"; B "guest:"]
              [(TMain, welcoming); (TMain, welcoming); (TWorker 0, welcoming)]
              (state_after sample
                 [(TMain, welcoming); (TMain, welcoming); (TWorker 0, welcoming)]
                 (init sample
                    (combined_jobs
                       [B "root:toor"; B "no colon here"; B "admin:a:b"; B "guest:"])))
              ltac:(vm_compute; reflexivity)) as (Hpushed & Hpending & _).
  split.
  - etransitivity; [exact Hpushed | vm_compute; reflexivity].
  - etransitivity; [exact Hpending | vm_compute; reflexivity].
Defined.

(** X5. Matrix mode pushes pairs of the cartesian product and no other:
    in every run, a pair that was pushed to [jobs] has a login of the
    login list and a password of the password list; the pairs that were
    pushed together with those that [main] has still to push are
    exactly the pairs of that kind; and when [jobs] has been closed, the
    pairs that were pushed are exactly those.  With no login, or with no
    password, nothing is pushed. *)
Theorem matrix_jobs_elem (g : Globals) (logins passwords : list bytes)
    (sched : list (Tid * Env)) (s : State) :
  let ran := pushed g sched (init g (matrix_jobs logins passwords)) in
  run g sched (init g (matrix_jobs logins passwords)) = Some s ->
  (forall job, job ∈ ran -> user job ∈ logins /\ pass job ∈ passwords) /\
  (forall job, job ∈ ran ++ pending (main_pc s)
               <-> user job ∈ logins /\ pass job ∈ passwords) /\
  (jobs_closed s = true ->
   forall job, job ∈ ran <-> user job ∈ logins /\ pass job ∈ passwords).
Proof.
  intros ran Hrun. subst ran.
  destruct (pushes_of_a_run g _ sched s Hrun) as (Htake & Hdrop & _ & Hall).
  assert (Hboth : forall job,
            job ∈ pushed g sched (init g (matrix_jobs logins passwords))
                  ++ pending (main_pc s)
            <-> user job ∈ logins /\ pass job ∈ passwords).
  { intros job. rewrite Htake, Hdrop, take_drop. apply matrix_jobs_product. }
  split; [|split; [exact Hboth|]].
  - intros job Hjob. apply Hboth, elem_of_app. by left.
  - intros Hcl job. rewrite (Hall Hcl). apply matrix_jobs_product.
Qed.

(** The sample attack when [main] has pushed three pairs, of which the
    workers have taken two. *)
Lemma matrix_jobs_elem_witness :
  let sched := [ (TMain, welcoming); (TMain, welcoming);
                 (TWorker 0, welcoming); (TWorker 1, welcoming); (TMain, welcoming) ] in
  let pairs := matrix_jobs [B "alice"; B "bob"] [B "x"; B "y"] in
  pushed sample sched (init sample pairs)
  = [ {| user := B "alice"; pass := B "x" |}; {| user := B "bob"; pass := B "x" |};
      {| user := B "alice"; pass := B "y" |} ] /\
  forall job, job ∈ pushed sample sched (init sample pairs) ->
              user job ∈ [B "alice"; B "bob"] /\ pass job ∈ [B "x"; B "y"].
Proof.
  split; [vm_compute; reflexivity|].
  apply (proj1 (matrix_jobs_elem sample [B "alice"; B "bob"] [B "x"; B "y"]
           [ (TMain, welcoming); (TMain, welcoming);
             (TWorker 0, welcoming); (TWorker 1, welcoming); (TMain, welcoming) ]
           (state_after sample
              [ (TMain, welcoming); (TMain, welcoming);
                (TWorker 0, welcoming); (TWorker 1, welcoming); (TMain, welcoming) ]
              (init sample (matrix_jobs [B "alice"; B "bob"] [B "x"; B "y"])))
           ltac:(vm_compute; reflexivity))).
Defined.

Module ScanFacts.

Lemma result_line_text (job : Job) : result_line job = pair_text job ++ ["010"%char].
Proof. unfold result_line, pair_text. by rewrite <- !app_assoc. Qed.

Lemma dropCR_spec (data : bytes) :
  Bufio.dropCR data
  = if bool_decide (last data = Some "013"%char)
    then take (length data - 1) data else data.
Proof.
  unfold Bufio.dropCR. destruct (last data) as [c|]; [|done].
  destruct c as [[] [] [] [] [] [] [] []]; done.
Qed.

Lemma dropCR_keeps (line : bytes) :
  last line <> Some "013"%char -> Bufio.dropCR line = line.
Proof. intros H. rewrite dropCR_spec. by rewrite bool_decide_false. Qed.

(** A carriage return at the end of a line login:pass is one at the
    end of the password. *)
Lemma dropCR_pair_text (u p : bytes) :
  Bufio.dropCR (u ++ ":"%char :: p) = u ++ ":"%char :: Bufio.dropCR p.
Proof.
  rewrite !dropCR_spec, last_app_cons, last_cons.
  destruct p as [|c p]; [done|].
  destruct (last (c :: p)) as [d|] eqn:E; [|by apply last_None in E].
  case_bool_decide as Hd; [|done].
  rewrite length_app. cbn [length].
  replace (length u + S (S (length p)) - 1) with (length u + S (S (length p) - 1)) by lia.
  by rewrite take_app_add, firstn_cons.
Qed.

Lemma scan_eq (line data : bytes) :
  Bufio.scan line data
  = if (Bufio.MaxScanTokenSize <=? N.of_nat (length line))%N then None
    else match data with
         | [] => if nonempty_list line then Some [Bufio.dropCR line] else Some []
         | c :: data' =>
             if Ascii.eqb c "010" then cons (Bufio.dropCR line) <$> Bufio.scan [] data'
             else Bufio.scan (line ++ [c]) data'
         end.
Proof. by destruct data. Qed.

(** The scanner reads a line up to its newline. *)
Lemma scan_line (text line rest : bytes) :
  "010"%char ∉ text ->
  (N.of_nat (length (line ++ text)) < Bufio.MaxScanTokenSize)%N ->
  Bufio.scan line (text ++ "010"%char :: rest)
  = cons (Bufio.dropCR (line ++ text)) <$> Bufio.scan [] rest.
Proof.
  revert line; induction text as [|c text IH]; intros line Hnl Hlen.
  - rewrite app_nil_r in *. simpl app. rewrite scan_eq.
    destruct (N.leb_spec Bufio.MaxScanTokenSize (N.of_nat (length line))); [lia|].
    done.
  - apply not_elem_of_cons in Hnl as [Hc Hnl].
    rewrite length_app in Hlen. simpl length in Hlen.
    change ((c :: text) ++ "010"%char :: rest) with (c :: (text ++ "010"%char :: rest)).
    rewrite scan_eq.
    destruct (N.leb_spec Bufio.MaxScanTokenSize (N.of_nat (length line))); [lia|].
    destruct (Ascii.eqb_spec c "010"); [by subst|].
    rewrite IH; [|done|rewrite !length_app; simpl length; lia].
    by rewrite <- app_assoc.
Qed.

End ScanFacts.

(** X4. What the sink holds can be fed back with -C.  When the sink
    holds the lines of pairs whose logins have no colon, whose logins
    and passwords have no newline, and whose lines are shorter than the
    buffer of the scanner, the scanner of the combined file cuts the
    contents of the sink into lines that are read as those very pairs,
    in order, but for a carriage return at the end of a password, which
    is lost; the pairs whose passwords do not end in a carriage return
    come back as they were. *)
Theorem combined_jobs_of_text (pairs : list Job) :
  Forall (fun job =>
            (":"%char ∉ user job) /\
            ("010"%char ∉ user job) /\ ("010"%char ∉ pass job) /\
            (N.of_nat (length (user job) + 1 + length (pass job))
             < Bufio.MaxScanTokenSize)%N) pairs ->
  combined_jobs <$> Bufio.Scan (concat (result_line <$> pairs))
  = Some ((fun job => {| user := user job; pass := Bufio.dropCR (pass job) |}) <$> pairs) /\
  (Forall (fun job => last (pass job) <> Some "013"%char) pairs ->
   combined_jobs <$> Bufio.Scan (concat (result_line <$> pairs)) = Some pairs).
Proof.
  intros Hall.
  set (kept := fun job => {| user := user job; pass := Bufio.dropCR (pass job) |}).
  assert (Hscan : Bufio.Scan (concat (result_line <$> pairs))
                  = Some (pair_text <$> (kept <$> pairs))).
  { unfold Bufio.Scan. induction Hall as [|[u p] pairs (Hu & Hnu & Hnp & Hlen) _ IH];
      [done|].
    cbn [user pass] in *.
    rewrite !fmap_cons. simpl concat. rewrite ScanFacts.result_line_text, <- app_assoc.
    simpl app at 2.
    rewrite ScanFacts.scan_line, IH.
    - simpl. unfold pair_text, kept. cbn [user pass].
      change (u ++ B ":" ++ p) with (u ++ ":"%char :: p).
      by rewrite ScanFacts.dropCR_pair_text.
    - unfold pair_text. cbn [user pass]. rewrite !not_elem_of_app.
      split; [done|]. split; [|done].
      apply not_elem_of_cons. split; [done | apply not_elem_of_nil].
    - unfold pair_text. cbn [user pass]. simpl app at 1.
      rewrite !length_app. simpl. unfold Bufio.MaxScanTokenSize in *. lia. }
  assert (Hread : combined_jobs <$> Bufio.Scan (concat (result_line <$> pairs))
                  = Some (kept <$> pairs)).
  { rewrite Hscan. simpl. f_equal. apply combined_jobs_pair_texts.
    apply Forall_fmap. eapply Forall_impl; [exact Hall|]. by intros job (Hu & _). }
  split; [exact Hread|].
  intros Hcr. rewrite Hread. f_equal.
  clear Hall Hscan Hread. induction Hcr as [|[u p] pairs Hp _ IH]; [done|].
  rewrite fmap_cons, IH. unfold kept at 1. cbn [user pass] in *.
  by rewrite ScanFacts.dropCR_keeps.
Qed.

(** Two pairs that come back as they were, and one that loses the
    carriage return of its password. *)
Lemma combined_jobs_of_text_witness :
  combined_jobs <$> Bufio.Scan (B "root:a:b" ++ ["010"%char] ++ B ":" ++ ["010"%char])
  = Some [ {| user := B "root"; pass := B "a:b" |}; {| user := B ""; pass := B "" |} ] /\
  combined_jobs <$> Bufio.Scan (B "admin:pw" ++ ["013"%char; "010"%char])
  = Some [ {| user := B "admin"; pass := B "pw" |} ].
Proof.
  split.
  - apply (proj2 (combined_jobs_of_text
                    [ {| user := B "root"; pass := B "a:b" |};
                      {| user := B ""; pass := B "" |} ]
                    ltac:(repeat constructor; by_computation)));
      repeat constructor; by_computation.
  - apply (proj1 (combined_jobs_of_text
                    [ {| user := B "admin"; pass := B "pw" ++ ["013"%char] |} ]
                    ltac:(repeat constructor; by_computation))).
Defined.
